(** * axis-graphql: the RPC bridge to the full node

    A shallow embedding of three pieces of package [rpc]:

    - the delegation accessors [StakeUnlockPenalty] and [PendingRewards]
      (sfc_delegations),
    - the decimals correction of [DefiConfiguration]
      (defi_settings.go, [pullDefiDecimalCorrection]),
    - the block observer [observeBlocks] with [blockSubscription],
      the resilient subscription loop.

    Go values are modelled as follows.  A [*big.Int] is a [Z], a nil
    pointer is [None].  A value of interface type [error] is [option error]
    where [None] is the nil error.  A [(T, error)] pair returned by a
    collaborator that follows the Go convention (exactly one of the two is
    set) is a [result].  Calls to the logger are collected in order. *)

From Stdlib Require Import ZArith List String Bool Lia Permutation.
From Equations Require Import Equations.
Import ListNotations.

Local Open Scope string_scope.
Local Open Scope list_scope.
Local Open Scope Z_scope.

(** ** Go values shared by the three parts *)

(** A non-nil error, identified by its message ([err.Error()]). *)
Definition error := string.

Inductive result (A : Type) : Type :=
| Ok (a : A)
| Err (e : error).
Arguments Ok {A} a.
Arguments Err {A} e.

(** Severities of the logger used by the bridge. *)
Inductive level := Debug | Notice | Error | Critical.

(** Arguments handed to a formatting log call. *)
Inductive logarg :=
| AStr (s : string)
| AUint (n : Z)
| AAddr (a : Z).

(** One call [axis.log.<Level>f(format, args...)]. *)
Record LogEntry := Logf {
  log_level : level;
  log_format : string;
  log_args : list logarg
}.

(** A computation that logs: its value and the entries it wrote. *)
Definition Logged (A : Type) : Type := A * list LogEntry.

Definition ret {A} (a : A) : Logged A := (a, []).
Definition log (e : LogEntry) : Logged unit := (tt, [e]).
Definition bind {A B} (m : Logged A) (k : A -> Logged B) : Logged B :=
  let (a, l1) := m in let (b, l2) := k a in (b, l1 ++ l2).

Notation "m ;; k" := (bind m (fun _ => k))
  (at level 61, right associativity).

(** [common.Address]: 20 bytes, as a 160-bit number. *)
Definition Address := Z.

(** [Uint64] of a [big.Int]: the low 64 bits of the magnitude. *)
Definition Uint64 (x : Z) : Z := Z.abs x mod 2 ^ 64.

(** [SetBytes] of a [big.Int]: the bytes read as a big-endian unsigned number. *)
Definition SetBytes (data : list Byte.byte) : Z :=
  fold_left (fun acc b => acc * 256 + Z.of_N (Byte.to_N b)) data 0.

(** Wrap-around of an [int32]. *)
Definition wrap32 (x : Z) : Z := (x + 2 ^ 31) mod 2 ^ 32 - 2 ^ 31.

(** ** sfc_delegations: StakeUnlockPenalty and PendingRewards *)

Module Delegations.

(** [ethereum.CallMsg], the fields the call sets. *)
Record CallMsg := {
  From : Address;
  To : option Address;
  Data : list Byte.byte
}.

(** [types.PendingRewards]. *)
Record PendingRewards_t := {
  pr_Address : Address;
  pr_Staker : Z;
  pr_Amount : Z
}.

(** The collaborators the two accessors reach through the bridge. *)
Record AxisBridge := {
  (** [axis.SfcAbi().Pack(name, args...)] *)
  SfcAbi_Pack : string -> list Z -> result (list Byte.byte);
  (** [axis.eth.CallContract(ctx, msg, nil)] *)
  eth_CallContract : CallMsg -> result (list Byte.byte);
  (** [axis.sfcConfig.SFCContract] *)
  sfcConfig_SFCContract : Address;
  (** [axis.SfcContract().PendingRewards(opts, addr, valID)] *)
  SfcContract_PendingRewards : Address -> Z -> result Z
}.

Definition penalty_not_available : string :=
  "penalty for unlocking %d of %s to %d not available; %s".
Definition penalty_not_valid : string :=
  "penalty for unlocking %d of %s to %d response not valid; expected 32 bytes, received %d bytes".

(** StakeUnlockPenalty returns the expected penalty of a premature stake
    unlock: the pair (value, error) of the Go function, and its log. *)
Definition StakeUnlockPenalty (axis : AxisBridge)
    (addr : Address) (valID amount : Z) : Logged (option Z * option error) :=
  (* pack call data *)
  match SfcAbi_Pack axis "unlockStake" [valID; amount] with
  | Err err =>
      log (Logf Error penalty_not_available
             [AUint (Uint64 amount); AAddr addr; AUint (Uint64 valID); AStr err]) ;;
      ret (None, Some err)
  | Ok cd =>
      (* make the UnlockStake call as a view call *)
      match eth_CallContract axis
              {| From := addr; To := Some (sfcConfig_SFCContract axis); Data := cd |} with
      | Err err =>
          log (Logf Error penalty_not_available
                 [AUint (Uint64 amount); AAddr addr; AUint (Uint64 valID); AStr err]) ;;
          ret (None, Some err)
      | Ok data =>
          (* [err] is the nil error of the call that just succeeded *)
          let err : option error := None in
          if negb (Nat.eqb (List.length data) 32) then
            log (Logf Error penalty_not_valid
                   [AUint (Uint64 amount); AAddr addr; AUint (Uint64 valID);
                    AUint (Z.of_nat (List.length data))]) ;;
            ret (None, err)
          else
            ret (Some (SetBytes data), None)
      end
  end.

Definition pending_rewards_failed : string :=
  "can not calculate pending rewards of %s to %d; %s".

(** PendingRewards returns a detail of delegation rewards waiting to be
    claimed for the given delegation. *)
Definition PendingRewards (axis : AxisBridge) (addr : Address) (valID : Z)
    : Logged (option PendingRewards_t * option error) :=
  (* prep the empty value *)
  let pr := {| pr_Address := addr; pr_Staker := valID; pr_Amount := 0 |} in
  (* get the pending rewards amount *)
  match SfcContract_PendingRewards axis addr valID with
  | Err err =>
      log (Logf Critical pending_rewards_failed
             [AAddr addr; AUint (Uint64 valID); AStr err]) ;;
      ret (Some pr, None)
  | Ok amo =>
      (* update the amount *)
      let pr := {| pr_Address := pr_Address pr; pr_Staker := pr_Staker pr;
                   pr_Amount := amo |} in
      ret (Some pr, None)
  end.

(** A bridge whose contract answers every call with an empty response. *)
Definition empty_response_bridge : AxisBridge :=
  {| SfcAbi_Pack := fun _ _ => Ok [];
     eth_CallContract := fun _ => Ok [];
     sfcConfig_SFCContract := 0;
     SfcContract_PendingRewards := fun _ _ => Ok 0 |}.

End Delegations.

(** ** defi_settings.go: the decimals correction *)

Module DefiSettings.

(** The loop of [pullDefiDecimalCorrection]:
    [for value > 1 { value /= 10; dec++ }], with [value] a [uint64] and
    [dec] an [int32]. *)
Equations? decimals_loop (value dec : Z) : Z
    by wf (Z.to_nat (Z.log2 value)) lt :=
  decimals_loop value dec with Z_lt_dec 1 value => {
    | left _ := decimals_loop (value / 10) (wrap32 (dec + 1));
    | right _ := dec }.
Proof.
  assert (Hhalf : value / 10 <= value / 2)
    by (apply Z.div_le_compat_l; lia).
  assert (Hpos : 0 < value / 2)
    by (apply Z.div_str_pos; lia).
  assert (Hdbl : 2 * (value / 2) <= value)
    by (apply Z.mul_div_le; lia).
  pose proof (Z.log2_le_mono _ _ Hhalf) as H1.
  pose proof (Z.log2_le_mono _ _ Hdbl) as H2.
  rewrite Z.log2_double in H2 by exact Hpos.
  pose proof (Z.log2_nonneg (value / 10)).
  lia.
Qed.

(** [pullDefiConfigValue]: the loader's (value, error) pair, where a nil
    value without an error is turned into an error. *)
Definition pullDefiConfigValue (cf : option Z * option error) : result Z :=
  match cf with
  | (_, Some err) => Err err
  | (None, None) => Err "defi config value not available"
  | (Some val, None) => Ok val
  end.

(** [pullDefiDecimalCorrection], given what the contract's
    [FMintFeeDigitsCorrection] loader returns. *)
Definition pullDefiDecimalCorrection (cf : option Z * option error)
    : Logged (Z * option error) :=
  match pullDefiConfigValue cf with
  | Err err =>
      log (Logf Error "can not pull decimals correction; %s" [AStr err]) ;;
      ret (0, Some err)
  | Ok val =>
      (* calculate number of decimals *)
      let value := Uint64 val in
      ret (decimals_loop value 0, None)
  end.

(** The decimals computed for the unsigned value [v]. *)
Definition decimals (v : Z) : Z := decimals_loop v 0.

(** [k] is the integer part of the decimal logarithm of [v]. *)
Definition is_floor_log10 (v k : Z) : Prop :=
  0 <= k /\ 10 ^ k <= v < 10 ^ (k + 1).

(** [n] is the number of integer divisions by ten that bring [v] to at
    most one. *)
Definition is_div10_count (v n : Z) : Prop :=
  0 <= n /\ v / 10 ^ n <= 1 /\ forall m, 0 <= m < n -> 1 < v / 10 ^ m.

End DefiSettings.

(** ** The block observer: observeBlocks and blockSubscription

    [observeBlocks] runs in a goroutine of its own and never returns a
    value; what it does is what it calls and when.  It is embedded as a
    transition system: a [state] holds the local variable [sub], the point
    the worker stands at, the clock and the channels it selects on; an
    [event] is either something the surroundings do (time passes, the
    shutdown signal fires, the pending [EthSubscribe] call returns, the live
    subscription fails) or the choice of a ready case by one of the two
    [select] statements.  Every call the worker makes is appended to the
    [trace].  An execution is a list of events that [run] accepts. *)

Module Observer.

(** [time.Duration] and instants of the clock, in nanoseconds. *)
Definition Duration := Z.
Definition Second : Duration := 1000000000.

(** axisHeadsObserverSubscribeTick represents the time between
    subscription attempts. *)
Definition axisHeadsObserverSubscribeTick : Duration := 30 * Second.

(** A non-nil [ethereum.Subscription]; the handle returned by the n-th
    call of [EthSubscribe] is numbered n (from 0). *)
Definition Subscription := nat.

(** A [*time.Timer]: the timers are numbered in the order of their
    creation; [tm_deadline] is the instant from which [tm.C] is ready. *)
Record Timer := {
  tm_id : nat;
  tm_deadline : Z
}.

(** The channels the worker receives from. *)
Inductive chan :=
| SigClose
| TimerC (id : nat)
| SubErr (sub : Subscription).

(** What the worker does, as seen from outside. *)
Inductive effect :=
| CallEthSubscribe (t : Z)
| Log (e : LogEntry)
| NewTimer (id : nat) (t : Z) (d : Duration)
| Recv (c : chan)
| Unsubscribe (sub : Subscription)
| WgDone.

(** The three entries the observer writes. *)
Definition can_not_observe (err : error) : LogEntry :=
  Logf Critical "can not observe new blocks; %s" [AStr err].
Definition subscription_failed (err : error) : LogEntry :=
  Logf Error "block subscription failed; %s" [AStr err].
Definition observer_done : LogEntry :=
  Logf Notice "block observer done" [].

(** blockSubscription provides a subscription for new blocks received by
    the connected blockchain node; [r] is what [axis.rpc.EthSubscribe]
    returned. *)
Definition blockSubscription (r : result Subscription)
    : Logged (option Subscription) :=
  match r with
  | Err err =>
      log (can_not_observe err) ;;
      ret None
  | Ok sub => ret (Some sub)
  end.

(** The points at which the worker waits. *)
Inductive pc :=
| InSubscribe              (* inside blockSubscription: EthSubscribe pending *)
| SelectTimer (tm : Timer) (* select { <-axis.sigClose; <-tm.C } *)
| SelectSub                (* select { <-axis.sigClose; <-sub.Err() } *)
| Returned.                (* returned; the deferred function has run *)

Record state := {
  now : Z;                     (* the clock *)
  sigClose : bool;             (* the shutdown signal has fired *)
  at_ : pc;
  sub : option Subscription;   (* the local variable [sub]; nil is [None] *)
  sub_err : option error;      (* the error waiting on [sub.Err()] *)
  subscribes : nat;            (* calls of EthSubscribe issued so far *)
  timers : nat;                (* timers created so far *)
  trace : list effect          (* what the worker did, oldest first *)
}.

Definition set_now (t : Z) (s : state) : state :=
  {| now := t; sigClose := sigClose s; at_ := at_ s; sub := sub s;
     sub_err := sub_err s; subscribes := subscribes s; timers := timers s;
     trace := trace s |}.

Definition set_sigClose (b : bool) (s : state) : state :=
  {| now := now s; sigClose := b; at_ := at_ s; sub := sub s;
     sub_err := sub_err s; subscribes := subscribes s; timers := timers s;
     trace := trace s |}.

Definition set_at (p : pc) (s : state) : state :=
  {| now := now s; sigClose := sigClose s; at_ := p; sub := sub s;
     sub_err := sub_err s; subscribes := subscribes s; timers := timers s;
     trace := trace s |}.

(** Assigning [sub]; the error channel belongs to the handle, so a new
    value of [sub] starts with none waiting. *)
Definition set_sub (v : option Subscription) (s : state) : state :=
  {| now := now s; sigClose := sigClose s; at_ := at_ s; sub := v;
     sub_err := None; subscribes := subscribes s; timers := timers s;
     trace := trace s |}.

Definition set_sub_err (e : option error) (s : state) : state :=
  {| now := now s; sigClose := sigClose s; at_ := at_ s; sub := sub s;
     sub_err := e; subscribes := subscribes s; timers := timers s;
     trace := trace s |}.

Definition emit (effs : list effect) (s : state) : state :=
  {| now := now s; sigClose := sigClose s; at_ := at_ s; sub := sub s;
     sub_err := sub_err s; subscribes := subscribes s; timers := timers s;
     trace := trace s ++ effs |}.

(** The deferred function: [if sub != nil { sub.Unsubscribe() }], the
    notice and [axis.wg.Done()]. *)
Definition deferred (s : state) : state :=
  let s1 := match sub s with
            | Some h => emit [Unsubscribe h] s
            | None => s
            end in
  set_at Returned (emit [Log observer_done; WgDone] s1).

(** [tm := time.NewTimer(axisHeadsObserverSubscribeTick)] *)
Definition new_timer (s : state) : state :=
  let tm := {| tm_id := timers s;
               tm_deadline := now s + axisHeadsObserverSubscribeTick |} in
  {| now := now s; sigClose := sigClose s; at_ := SelectTimer tm; sub := sub s;
     sub_err := sub_err s; subscribes := subscribes s; timers := S (timers s);
     trace := trace s ++ [NewTimer (tm_id tm) (now s) axisHeadsObserverSubscribeTick] |}.

(** The head of the [for] loop: with [sub == nil] a timer is created and
    the worker waits in the first select, otherwise in the second. *)
Definition loop_head (s : state) : state :=
  match sub s with
  | None => new_timer s
  | Some _ => set_at SelectSub s
  end.

(** [sub = axis.blockSubscription()]: the call of [EthSubscribe] is issued. *)
Definition call_blockSubscription (s : state) : state :=
  {| now := now s; sigClose := sigClose s; at_ := InSubscribe; sub := sub s;
     sub_err := sub_err s; subscribes := S (subscribes s); timers := timers s;
     trace := trace s ++ [CallEthSubscribe (now s)] |}.

(** [EthSubscribe] returns, with an error or with a fresh handle;
    [blockSubscription] returns, [sub] is assigned and the loop is
    entered (line 204) or continued (line 214). *)
Definition return_blockSubscription (err : option error) (s : state) : state :=
  let r := match err with
           | Some e => Err e
           | None => Ok (pred (subscribes s))
           end in
  let (v, logs) := blockSubscription r in
  loop_head (set_sub v (emit (map Log logs) s)).

(** The cases of the two select statements. *)
Inductive case := CaseSigClose | CaseTimer | CaseErr.

(** Modelled from the spec: the shutdown signal [axis.sigClose] and the
    error channel of a subscription, which are declared outside the files
    at hand.  The signal is one-shot and broadcast: once fired it never
    resets, so [sigClose] stays ready.  The error channel of a subscription
    fires at most once, with an error value. *)
Inductive event :=
| Elapse (d : Duration)               (* time passes *)
| Shutdown                            (* the shutdown signal fires *)
| SubscribeReturns (err : option error) (* the pending EthSubscribe returns *)
| StreamFails (err : error)           (* the live subscription reports an error *)
| Select (c : case).                  (* a select takes a case that is ready *)

(** One step.  A select takes a case only if its channel is ready:
    [sigClose] once the signal has fired, [tm.C] from the timer's deadline
    on, [sub.Err()] once an error waits there; when both channels of a
    select are ready either case may be taken. *)
Definition step (s : state) (ev : event) : option state :=
  match ev with
  | Elapse d => if 0 <=? d then Some (set_now (now s + d) s) else None
  | Shutdown => if sigClose s then None else Some (set_sigClose true s)
  | SubscribeReturns err =>
      match at_ s with
      | InSubscribe => Some (return_blockSubscription err s)
      | _ => None
      end
  | StreamFails err =>
      match at_ s, sub s, sub_err s with
      | SelectSub, Some _, None => Some (set_sub_err (Some err) s)
      | _, _, _ => None
      end
  | Select c =>
      match at_ s, c with
      | SelectTimer tm, CaseSigClose =>
          if sigClose s then Some (deferred (emit [Recv SigClose] s)) else None
      | SelectTimer tm, CaseTimer =>
          if tm_deadline tm <=? now s
          then Some (call_blockSubscription (emit [Recv (TimerC (tm_id tm))] s))
          else None
      | SelectSub, CaseSigClose =>
          if sigClose s then Some (deferred (emit [Recv SigClose] s)) else None
      | SelectSub, CaseErr =>
          match sub s, sub_err s with
          | Some h, Some err =>
              Some (loop_head
                      (set_sub None
                         (emit [Recv (SubErr h);
                                Log (subscription_failed err)] s)))
          | _, _ => None
          end
      | _, _ => None
      end
  end.

Fixpoint run (s : state) (evs : list event) : option state :=
  match evs with
  | [] => Some s
  | ev :: evs' =>
      match step s ev with
      | Some s' => run s' evs'
      | None => None
      end
  end.

(** The worker has been started at instant [t0]: [sub] is nil, the
    deferred function is registered and the first [blockSubscription]
    (line 204) has issued its call. *)
Definition entry (t0 : Z) : state :=
  call_blockSubscription
    {| now := t0; sigClose := false; at_ := InSubscribe; sub := None;
       sub_err := None; subscribes := 0; timers := 0; trace := [] |}.

(** observeBlocks, started at [t0], under the schedule [evs]. *)
Definition observeBlocks (t0 : Z) (evs : list event) : option state :=
  run (entry t0) evs.

(** *** What a trace shows *)

Fixpoint wg_dones (tr : list effect) : nat :=
  match tr with
  | [] => 0
  | WgDone :: tr' => S (wg_dones tr')
  | _ :: tr' => wg_dones tr'
  end.

Fixpoint closes_received (tr : list effect) : nat :=
  match tr with
  | [] => 0
  | Recv SigClose :: tr' => S (closes_received tr')
  | _ :: tr' => closes_received tr'
  end.

Definition unsubscribes (tr : list effect) : list Subscription :=
  flat_map (fun e => match e with Unsubscribe h => [h] | _ => [] end) tr.

Definition open_times (tr : list effect) : list Z :=
  flat_map (fun e => match e with CallEthSubscribe t => [t] | _ => [] end) tr.

Definition timers_created (tr : list effect) : list nat :=
  flat_map (fun e => match e with NewTimer id _ _ => [id] | _ => [] end) tr.

Definition timer_delays (tr : list effect) : list Duration :=
  flat_map (fun e => match e with NewTimer _ _ d => [d] | _ => [] end) tr.

Definition timers_received (tr : list effect) : list nat :=
  flat_map (fun e => match e with Recv (TimerC id) => [id] | _ => [] end) tr.

Definition logged (tr : list effect) : list LogEntry :=
  flat_map (fun e => match e with Log l => [l] | _ => [] end) tr.

(** Every two instants of the list are at least [d] apart, the later one
    after the earlier one. *)
Fixpoint spaced (d : Duration) (l : list Z) : Prop :=
  match l with
  | [] => True
  | t :: l' => Forall (fun t' => t + d <= t') l' /\ spaced d l'
  end.

(** The schedule in which the first [length errs] opens fail with the
    given errors and each timer is received the instant it is due. *)
Fixpoint failing_opens (errs : list error) : list event :=
  match errs with
  | [] => []
  | e :: errs' =>
      SubscribeReturns (Some e)
        :: Elapse axisHeadsObserverSubscribeTick
        :: Select CaseTimer
        :: failing_opens errs'
  end.

(** What the worker does while the opens of [failing_opens errs] fail,
    from the return of the open issued before instant [t] on, [id] being
    the number of the next timer. *)
Fixpoint retry_trace (t : Z) (id : nat) (errs : list error) : list effect :=
  match errs with
  | [] => []
  | e :: errs' =>
      [Log (can_not_observe e);
       NewTimer id t axisHeadsObserverSubscribeTick;
       Recv (TimerC id);
       CallEthSubscribe (t + axisHeadsObserverSubscribeTick)]
        ++ retry_trace (t + axisHeadsObserverSubscribeTick) (S id) errs'
  end.

(** The results of the opens in a schedule, in order. *)
Definition open_results (evs : list event) : list (option error) :=
  flat_map (fun ev => match ev with
                      | SubscribeReturns r => [r]
                      | _ => []
                      end) evs.

(** The event is the firing of the shutdown signal. *)
Definition is_shutdown (ev : event) : bool :=
  match ev with
  | Shutdown => true
  | _ => false
  end.

(** The channel a waiting worker selects on besides [sigClose] is ready. *)
Definition other_case_ready (s : state) : bool :=
  match at_ s with
  | SelectTimer tm => tm_deadline tm <=? now s
  | SelectSub => match sub_err s with Some _ => true | None => false end
  | _ => false
  end.

(** The worker waits in one of its two selects. *)
Definition waiting (s : state) : bool :=
  match at_ s with
  | SelectTimer _ | SelectSub => true
  | _ => false
  end.

(** *** Invariants

    [Inv] holds of every state the worker reaches. *)
Abbreviation tick := axisHeadsObserverSubscribeTick.

Record Inv (s : state) : Prop := {
  inv_sub :
    match at_ s with
    | InSubscribe | SelectTimer _ => sub s = None
    | SelectSub => sub s <> None
    | Returned => True
    end;
  inv_handle : forall h, sub s = Some h -> S h = subscribes s;
  inv_running :
    at_ s <> Returned ->
    wg_dones (trace s) = 0%nat /\ unsubscribes (trace s) = []
    /\ closes_received (trace s) = 0%nat;
  inv_returned :
    at_ s = Returned ->
    sigClose s = true /\ wg_dones (trace s) = 1%nat
    /\ unsubscribes (trace s)
       = match sub s with Some h => [h] | None => [] end
    /\ closes_received (trace s) = 1%nat;
  inv_clock : Forall (fun t => t <= now s) (open_times (trace s));
  inv_timer :
    forall tm, at_ s = SelectTimer tm ->
      S (tm_id tm) = timers s
      /\ Forall (fun t => t + tick <= tm_deadline tm) (open_times (trace s))
      /\ Forall (fun id => (id < tm_id tm)%nat) (timers_received (trace s));
  inv_spaced : spaced tick (open_times (trace s));
  inv_created : timers_created (trace s) = seq 0 (timers s);
  inv_delays : Forall (fun d => d = tick) (timer_delays (trace s));
  inv_received :
    NoDup (timers_received (trace s))
    /\ Forall (fun id => (id < timers s)%nat) (timers_received (trace s));
  inv_opens :
    List.length (open_times (trace s)) = subscribes s
    /\ subscribes s = S (List.length (timers_received (trace s)))
}.

(** [Later D n base s]: the state [s] follows a state that waited on a
    timer due at [D], having issued [n] opens at the instants [base]. *)
Record Later (D : Z) (n : nat) (base : list Z) (s : state) : Prop := {
  lat_timer : forall tm, at_ s = SelectTimer tm -> D <= tm_deadline tm;
  lat_now : at_ s = InSubscribe \/ at_ s = SelectSub -> D <= now s;
  lat_opens :
    exists later,
      open_times (trace s) = base ++ later
      /\ Forall (fun t => D <= t) later;
  lat_subs : (n <= subscribes s)%nat;
  lat_handle :
    at_ s = InSubscribe \/ sub s <> None -> (n < subscribes s)%nat
}.

(** Where the worker stands while no open has succeeded and the shutdown
    signal has not fired, [rs] being the results of the opens that have
    returned. *)
Definition Retrying (rs : list (option error)) (s : state) : Prop :=
  sigClose s = false
  /\ match at_ s with
     | InSubscribe => subscribes s = S (List.length rs)
     | SelectTimer _ => subscribes s = List.length rs
     | SelectSub | Returned => False
     end.

End Observer.

(** ** sfc_base.go: version, epochs and the locking switch *)

Module SfcBase.

(** sfcFirstLockEpoch represents the first epoch with stake locking
    available. *)
Definition sfcFirstLockEpoch : Z := 1600.

(** The value of a byte, as [uint64(b)]. *)
Definition byteZ (b : Byte.byte) : Z := Z.of_N (Byte.to_N b).

(** [x << n] on a [uint64]. *)
Definition shl64 (x n : Z) : Z := Z.shiftl x n mod 2 ^ 64.

(** [int64(x)] of a [uint64]: the same 64 bits read in two's complement. *)
Definition to_int64 (x : Z) : Z := (x + 2 ^ 63) mod 2 ^ 64 - 2 ^ 63.

(** What [GetEpochSnapshot] returns, the fields [Epoch] reads. *)
Record EpochSnapshot := {
  es_EndTime : Z;
  es_EpochFee : Z;
  es_TotalBaseRewardWeight : Z;
  es_TotalTxRewardWeight : Z;
  es_BaseRewardPerSecond : Z;
  es_TotalStake : Z;
  es_TotalSupply : Z
}.

(** [types.Epoch], the fields [Epoch] sets. *)
Record Epoch_t := {
  ep_Id : Z;
  ep_EndTime : Z;
  ep_EpochFee : Z;
  ep_TotalBaseRewardWeight : Z;
  ep_TotalTxRewardWeight : Z;
  ep_BaseRewardPerSecond : Z;
  ep_StakeTotalAmount : Z;
  ep_TotalSupply : Z
}.

(** The methods of [axis.SfcContract()] the file calls. *)
Record SfcContract := {
  sfc_Version : result (Byte.byte * Byte.byte * Byte.byte);
  sfc_CurrentSealedEpoch : result Z;
  sfc_GetEpochSnapshot : Z -> result EpochSnapshot
}.

(** SfcVersion returns current version of the SFC contract as a single
    number. *)
Definition SfcVersion (sfc : SfcContract) : Logged (Z * option error) :=
  match sfc_Version sfc with
  | Err err =>
      log (Logf Critical "failed to get the SFC version; %s" [AStr err]) ;;
      ret (0, Some err)
  | Ok (v0, v1, v2) =>
      ret (Z.lor (Z.lor (shl64 (byteZ v0) 16) (shl64 (byteZ v1) 8)) (byteZ v2),
           None)
  end.

(** Epoch extract information about an epoch from SFC smart contract;
    [id] is a [hexutil.Uint64]. *)
Definition Epoch (sfc : SfcContract) (id : Z)
    : Logged (option Epoch_t * option error) :=
  (* extract epoch snapshot, at big.NewInt(int64(id)) *)
  match sfc_GetEpochSnapshot sfc (to_int64 id) with
  | Err err =>
      log (Logf Error "failed to extract epoch information: %s" [AStr err]) ;;
      ret (None, Some err)
  | Ok epo =>
      ret (Some {| ep_Id := id;
                   ep_EndTime := Uint64 (es_EndTime epo);
                   ep_EpochFee := es_EpochFee epo;
                   ep_TotalBaseRewardWeight := es_TotalBaseRewardWeight epo;
                   ep_TotalTxRewardWeight := es_TotalTxRewardWeight epo;
                   ep_BaseRewardPerSecond := es_BaseRewardPerSecond epo;
                   ep_StakeTotalAmount := es_TotalStake epo;
                   ep_TotalSupply := es_TotalSupply epo |},
           None)
  end.

(** LockingAllowed indicates if the stake locking has been enabled in
    SFC. *)
Definition LockingAllowed (sfc : SfcContract) : Logged (bool * option error) :=
  (* get the current sealed epoch value from the contract *)
  match sfc_CurrentSealedEpoch sfc with
  | Err err =>
      log (Logf Error "failed to get the current sealed epoch: %s" [AStr err]) ;;
      ret (false, Some err)
  | Ok epoch => ret (sfcFirstLockEpoch <=? Uint64 epoch, None)
  end.

(** The version triple (major, minor, patch) comes before or is the
    triple [b], in lexicographic order. *)
Definition version_le (a b : Z * Z * Z) : Prop :=
  let '(a0, a1, a2) := a in
  let '(b0, b1, b2) := b in
  a0 < b0 \/ (a0 = b0 /\ (a1 < b1 \/ (a1 = b1 /\ a2 <= b2))).

(** A contract that answers with the given version. *)
Definition contract_of_version (v : Byte.byte * Byte.byte * Byte.byte)
    : SfcContract :=
  {| sfc_Version := Ok v;
     sfc_CurrentSealedEpoch := Ok 0;
     sfc_GetEpochSnapshot := fun _ => Err "no snapshot" |}.

End SfcBase.

(** ** sfc_delegations: the lock, the tokenizer *)

Module Locks.
Import Delegations.

(** What [GetLockupInfo] returns: each field is a [*big.Int] and may be
    nil. *)
Record LockupInfo := {
  li_LockedStake : option Z;
  li_FromEpoch : option Z;
  li_EndTime : option Z;
  li_Duration : option Z
}.

(** [types.DelegationLock], the fields [DelegationLock] sets. *)
Record DelegationLock_t := {
  LockedAmount : Z;
  LockedFromEpoch : Z;
  LockedUntil : Z;
  Duration : Z
}.

(** [&types.DelegationLock{}]. *)
Definition empty_lock : DelegationLock_t :=
  {| LockedAmount := 0; LockedFromEpoch := 0; LockedUntil := 0;
     Duration := 0 |}.

(** A call either returns or panics. *)
Inductive outcome (A : Type) : Type :=
| Returns (a : A)
| Panics.
Arguments Returns {A} a.
Arguments Panics {A}.

(** The body of a function with the named results [(dll, err)]: it
    returns them, or panics with the values they hold at that point. *)
Inductive exec :=
| Return (dll : option DelegationLock_t) (err : option error)
| Panic (dll : option DelegationLock_t) (err : option error).

(** The body of [DelegationLock], [call] being what
    [GetLockupInfo(opts, addr, valID)] does.  Dereferencing a nil
    [*big.Int], or calling [Uint64] on one, panics. *)
Definition DelegationLock_body (call : outcome (result LockupInfo))
    : Logged exec :=
  match call with
  | Panics => ret (Panic None None)
  | Returns (Err err) =>
      log (Logf Error "delegation lock query failed; %v" [AStr err]) ;;
      ret (Return None (Some err))
  | Returns (Ok lock) =>
      (* [lock, err := ...] has set [err] to nil *)
      match li_FromEpoch lock, li_EndTime lock with
      | Some from, Some until =>
          (* make a new delegation lock *)
          match li_LockedStake lock, li_Duration lock with
          | Some stake, Some duration =>
              ret (Return (Some {| LockedAmount := stake;
                                   LockedFromEpoch := Uint64 from;
                                   LockedUntil := Uint64 until;
                                   Duration := Uint64 duration |})
                          None)
          | _, _ => ret (Panic None None)
          end
      | _, _ =>
          (* are lock timers available? *)
          log (Logf Error "delegation lock details not available" []) ;;
          ret (Return None (Some "delegation lock missing"))
      end
  end.

(** DelegationLock returns delegation lock information using SFC contract
    binding; the deferred function recovers from a panic and sets [dll]. *)
Definition DelegationLock (addr : Address) (valID : Z)
    (call : outcome (result LockupInfo))
    : Logged (option DelegationLock_t * option error) :=
  let (e, logs) := DelegationLock_body call in
  match e with
  | Return dll err => ((dll, err), logs)
  | Panic _ err =>
      ((Some empty_lock, err),
       logs ++ [Logf Critical
                  "can not get SFC lock status on delegation %s to %d; SFC call panic"
                  [AAddr addr; AUint valID]])
  end.

(** DelegationTokenizerUnlocked returns the status of SFC Tokenizer lock
    for a delegation identified by the address and staker id;
    [contract] is what [contracts.NewSfcTokenizer] returns, with the
    answer [AllowedToWithdrawStake] would give. *)
Definition DelegationTokenizerUnlocked (addr : Address) (valID : Z)
    (contract : result (result bool)) : Logged (bool * option error) :=
  log (Logf Debug "checking SFC tokenizer lock of %s to %d"
         [AAddr addr; AUint (Uint64 valID)]) ;;
  match contract with
  | Err err =>
      log (Logf Critical "failed to instantiate SFC Tokenizer contract: %s"
             [AStr err]) ;;
      ret (false, Some err)
  | Ok allowed =>
      (* get the lock status *)
      match allowed with
      | Err err =>
          log (Logf Critical
                 "failed to get SFC Tokenizer lock status of %s to %d; %s"
                 [AAddr addr; AUint (Uint64 valID); AStr err]) ;;
          ret (false, Some err)
      | Ok lock => ret (lock, None)
      end
  end.

(** The lock information has both lock times. *)
Definition has_times (lock : LockupInfo) : bool :=
  match li_FromEpoch lock, li_EndTime lock with
  | Some _, Some _ => true
  | _, _ => false
  end.

(** The lock information has the amount and the duration. *)
Definition has_amounts (lock : LockupInfo) : bool :=
  match li_LockedStake lock, li_Duration lock with
  | Some _, Some _ => true
  | _, _ => false
  end.

(** A bridge whose contract answers every call with 32 bytes, the last
    of them 7. *)
Definition seven_bridge : AxisBridge :=
  {| SfcAbi_Pack := fun _ _ => Ok [];
     eth_CallContract :=
       fun _ => Ok (repeat Byte.x00 31 ++ [Byte.x07]);
     sfcConfig_SFCContract := 0;
     SfcContract_PendingRewards := fun _ _ => Ok 0 |}.

(** A bridge whose contract call fails. *)
Definition failing_bridge : AxisBridge :=
  {| SfcAbi_Pack := fun _ _ => Ok [];
     eth_CallContract := fun _ => Err "reverted";
     sfcConfig_SFCContract := 0;
     SfcContract_PendingRewards := fun _ _ => Err "reverted" |}.

End Locks.

(** ** defi_settings.go: loading the configuration *)

Module DefiConfig.
Import DefiSettings.

(** The fields of the settings the loaders map points to. *)
Inductive item := MintFee4 | MinCollateralRatio4 | RewardCollateralRatio4.

(** [types.DefiSettings], the fields [DefiConfiguration] sets. *)
Record DefiSettings_t := {
  FMintContract : Address;
  FMintAddressProvider : Address;
  FMintTokenRegistry : Address;
  FMintRewardDistribution : Address;
  FMintCollateralPool : Address;
  FMintDebtPool : Address;
  PriceOracleAggregate : Address;
  ds_MintFee4 : Z;
  ds_MinCollateralRatio4 : Z;
  ds_RewardCollateralRatio4 : Z;
  ds_Decimals : Z
}.

(** [*ref = v] for the key [ref] of the loaders map. *)
Definition store (ref : item) (v : Z) (ds : DefiSettings_t) : DefiSettings_t :=
  {| FMintContract := FMintContract ds;
     FMintAddressProvider := FMintAddressProvider ds;
     FMintTokenRegistry := FMintTokenRegistry ds;
     FMintRewardDistribution := FMintRewardDistribution ds;
     FMintCollateralPool := FMintCollateralPool ds;
     FMintDebtPool := FMintDebtPool ds;
     PriceOracleAggregate := PriceOracleAggregate ds;
     ds_MintFee4 :=
       match ref with MintFee4 => v | _ => ds_MintFee4 ds end;
     ds_MinCollateralRatio4 :=
       match ref with
       | MinCollateralRatio4 => v
       | _ => ds_MinCollateralRatio4 ds
       end;
     ds_RewardCollateralRatio4 :=
       match ref with
       | RewardCollateralRatio4 => v
       | _ => ds_RewardCollateralRatio4 ds
       end;
     ds_Decimals := ds_Decimals ds |}.

(** [*ref] *)
Definition load (ref : item) (ds : DefiSettings_t) : Z :=
  match ref with
  | MintFee4 => ds_MintFee4 ds
  | MinCollateralRatio4 => ds_MinCollateralRatio4 ds
  | RewardCollateralRatio4 => ds_RewardCollateralRatio4 ds
  end.

Definition set_Decimals (dec : Z) (ds : DefiSettings_t) : DefiSettings_t :=
  {| FMintContract := FMintContract ds;
     FMintAddressProvider := FMintAddressProvider ds;
     FMintTokenRegistry := FMintTokenRegistry ds;
     FMintRewardDistribution := FMintRewardDistribution ds;
     FMintCollateralPool := FMintCollateralPool ds;
     FMintDebtPool := FMintDebtPool ds;
     PriceOracleAggregate := PriceOracleAggregate ds;
     ds_MintFee4 := ds_MintFee4 ds;
     ds_MinCollateralRatio4 := ds_MinCollateralRatio4 ds;
     ds_RewardCollateralRatio4 := ds_RewardCollateralRatio4 ds;
     ds_Decimals := dec |}.

(** tConfigItemsLoaders defines a map between DeFi config elements and
    their respective loaders: here the entries in the order in which the
    [range] statement visits them, each loader given by what it returns. *)
Definition tConfigItemsLoaders : Type :=
  list (item * (option Z * option error)).

(** pullSetOfDefiConfigValues pulls set of DeFi configuration values for
    the given config loaders map; the settings after the call and the
    error.  [*ref, err = ...] stores the zero value when the loader fails. *)
Fixpoint pullSetOfDefiConfigValues (loaders : tConfigItemsLoaders)
    (ds : DefiSettings_t) : DefiSettings_t * option error :=
  match loaders with
  | [] => (ds, None)
  | (ref, fn) :: rest =>
      match pullDefiConfigValue fn with
      | Err err => (store ref 0 ds, Some err)
      | Ok v => pullSetOfDefiConfigValues rest (store ref v ds)
      end
  end.

(** The methods of the minter contract the configuration reads, each by
    what it returns. *)
Record DefiFMintMinter := {
  GetFMintFee4dec : option Z * option error;
  GetCollateralLowestDebtRatio4dec : option Z * option error;
  GetRewardEligibilityRatio4dec : option Z * option error;
  FMintFeeDigitsCorrection : option Z * option error
}.

(** [axis.fMintCfg]: the access to the contract and the addresses that
    [mustContractAddress] resolves. *)
Record FMintConfig := {
  fMintMinterContract : result DefiFMintMinter;
  addressProvider : Address;
  fMintAddressMinter : Address;
  fMintAddressTokenRegistry : Address;
  fMintAddressRewardDistribution : Address;
  fMintCollateralPool : Address;
  fMintDebtPool : Address;
  fMintAddressPriceOracleProxy : Address
}.

(** The loader the map holds under the key [ref]. *)
Definition loader (contract : DefiFMintMinter) (ref : item)
    : option Z * option error :=
  match ref with
  | MintFee4 => GetFMintFee4dec contract
  | MinCollateralRatio4 => GetCollateralLowestDebtRatio4dec contract
  | RewardCollateralRatio4 => GetRewardEligibilityRatio4dec contract
  end.

(** The keys of the loaders map. *)
Definition items : list item :=
  [MintFee4; MinCollateralRatio4; RewardCollateralRatio4].

(** DefiConfiguration resolves the current DeFi contract settings;
    [order] is the order in which the [range] statement visits the three
    keys of the loaders map. *)
Definition DefiConfiguration (cfg : FMintConfig) (order : list item)
    : Logged (option DefiSettings_t * option error) :=
  (* access the contract *)
  match fMintMinterContract cfg with
  | Err err => ret (None, Some err)
  | Ok contract =>
      (* create the container *)
      let ds := {| FMintContract := fMintAddressMinter cfg;
                   FMintAddressProvider := addressProvider cfg;
                   FMintTokenRegistry := fMintAddressTokenRegistry cfg;
                   FMintRewardDistribution := fMintAddressRewardDistribution cfg;
                   FMintCollateralPool := fMintCollateralPool cfg;
                   FMintDebtPool := fMintDebtPool cfg;
                   PriceOracleAggregate := fMintAddressPriceOracleProxy cfg;
                   ds_MintFee4 := 0;
                   ds_MinCollateralRatio4 := 0;
                   ds_RewardCollateralRatio4 := 0;
                   ds_Decimals := 0 |} in
      (* prep to load certain values *)
      let loaders := map (fun ref => (ref, loader contract ref)) order in
      (* load all the configured values *)
      match pullSetOfDefiConfigValues loaders ds with
      | (_, Some err) =>
          log (Logf Error "can not pull defi config values; %s" [AStr err]) ;;
          ret (None, Some err)
      | (ds, None) =>
          (* load the decimals correction *)
          bind (pullDefiDecimalCorrection (FMintFeeDigitsCorrection contract))
            (fun r =>
               let ds := set_Decimals (fst r) ds in
               match snd r with
               | Some err =>
                   log (Logf Error "can not pull defi decimals correction; %s"
                          [AStr err]) ;;
                   ret (None, Some err)
               | None => ret (Some ds, None)
               end)
      end
  end.

(** The loader returned a value and no error. *)
Definition loaded (fn : option Z * option error) : option Z :=
  match pullDefiConfigValue fn with
  | Ok v => Some v
  | Err _ => None
  end.

(** Settings with every address and value set to a number of its own. *)
Definition sample_settings : DefiSettings_t :=
  {| FMintContract := 1; FMintAddressProvider := 2; FMintTokenRegistry := 3;
     FMintRewardDistribution := 4; FMintCollateralPool := 5;
     FMintDebtPool := 6; PriceOracleAggregate := 7;
     ds_MintFee4 := 11; ds_MinCollateralRatio4 := 12;
     ds_RewardCollateralRatio4 := 13; ds_Decimals := 14 |}.

(** A minter contract whose loaders all return a value, and a
    configuration that reaches it. *)
Definition sample_minter : DefiFMintMinter :=
  {| GetFMintFee4dec := (Some 25, None);
     GetCollateralLowestDebtRatio4dec := (Some 30000, None);
     GetRewardEligibilityRatio4dec := (Some 50000, None);
     FMintFeeDigitsCorrection := (Some 10000, None) |}.

Definition sample_config : FMintConfig :=
  {| fMintMinterContract := Ok sample_minter;
     addressProvider := 1;
     fMintAddressMinter := 2;
     fMintAddressTokenRegistry := 3;
     fMintAddressRewardDistribution := 4;
     fMintCollateralPool := 5;
     fMintDebtPool := 6;
     fMintAddressPriceOracleProxy := 7 |}.

End DefiConfig.

(** ** The block observer: accounts of an execution *)

Module ObserverAccounts.
Import Observer.

(** The stream failures the worker received, by handle. *)
Definition drops (tr : list effect) : list Subscription :=
  flat_map (fun e => match e with Recv (SubErr h) => [h] | _ => [] end) tr.

(** The opens of a schedule that returned a subscription. *)
Definition successes (evs : list event) : nat :=
  List.length (filter (fun r => match r with None => true | Some _ => false end)
                 (open_results evs)).

(** The errors of the opens of a schedule that failed. *)
Definition failures (evs : list event) : list error :=
  flat_map (fun r => match r with Some e => [e] | None => [] end)
    (open_results evs).

(** The handle the worker holds and has not yet given up. *)
Definition held (s : state) : list Subscription :=
  match at_ s, sub s with
  | Returned, _ => []
  | _, Some h => [h]
  | _, None => []
  end.

(** The entries of a log at a given level. *)
Definition at_level (l : level) (entries : list LogEntry) : list LogEntry :=
  filter (fun e => match log_level e, l with
                   | Debug, Debug | Notice, Notice | Error, Error
                   | Critical, Critical => true
                   | _, _ => false
                   end) entries.

(** The event is the return of the pending open. *)
Definition is_open_return (ev : event) : bool :=
  match ev with
  | SubscribeReturns _ => true
  | _ => false
  end.

(** The trace of a worker that has returned ends with the receipt of the
    shutdown signal and the deferred cleanup. *)
Definition Ends_with_cleanup (s : state) : Prop :=
  at_ s = Returned ->
  exists pre,
    trace s
    = pre ++ [Recv SigClose]
        ++ match sub s with Some h => [Unsubscribe h] | None => [] end
        ++ [Log observer_done; WgDone]
    /\ wg_dones pre = 0%nat /\ unsubscribes pre = []
    /\ closes_received pre = 0%nat.

End ObserverAccounts.

(** * Properties *)

(** ** The delegation accessors *)

Module DelegationsSpec.
Import Delegations.

(** C8. When packing succeeds and the contract call succeeds with response
    data whose length is not 32 bytes, [StakeUnlockPenalty] returns a nil
    value together with a nil error (the error of the call that just
    succeeded), after logging the size mismatch. *)
Theorem StakeUnlockPenalty_nil_value_nil_error
    (axis : AxisBridge) (addr : Address) (valID amount : Z)
    (cd data : list Byte.byte) :
  SfcAbi_Pack axis "unlockStake" [valID; amount] = Ok cd ->
  eth_CallContract axis
    {| From := addr; To := Some (sfcConfig_SFCContract axis); Data := cd |}
    = Ok data ->
  List.length data <> 32%nat ->
  StakeUnlockPenalty axis addr valID amount
  = ((None, None),
     [Logf Error penalty_not_valid
        [AUint (Uint64 amount); AAddr addr; AUint (Uint64 valID);
         AUint (Z.of_nat (List.length data))]]).
Proof.
  intros Hpack Hcall Hlen.
  unfold StakeUnlockPenalty.
  rewrite Hpack, Hcall.
  destruct (Nat.eqb_spec (List.length data) 32) as [Heq | _].
  - contradiction.
  - reflexivity.
Qed.

Lemma StakeUnlockPenalty_nil_value_nil_error_witness :
  fst (StakeUnlockPenalty empty_response_bridge 1 2 3) = (None, None).
Proof.
  rewrite (StakeUnlockPenalty_nil_value_nil_error
             empty_response_bridge 1 2 3 [] []).
  - reflexivity.
  - reflexivity.
  - reflexivity.
  - simpl. discriminate.
Defined.

(** C9. [PendingRewards] never returns an error: the result is always a
    record with the given address and staker id, whose amount is the
    fetched value when the contract call succeeds and zero when it fails. *)
Theorem PendingRewards_never_fails
    (axis : AxisBridge) (addr : Address) (valID : Z) :
  fst (PendingRewards axis addr valID)
  = (Some {| pr_Address := addr;
             pr_Staker := valID;
             pr_Amount := match SfcContract_PendingRewards axis addr valID with
                          | Ok amo => amo
                          | Err _ => 0
                          end |},
     None).
Proof.
  unfold PendingRewards.
  destruct (SfcContract_PendingRewards axis addr valID); reflexivity.
Qed.

End DelegationsSpec.

(** ** The decimals correction *)

Module DefiSettingsSpec.
Import DefiSettings.

Lemma wrap32_small (x : Z) : - 2 ^ 31 <= x < 2 ^ 31 -> wrap32 x = x.
Proof.
  intros H. unfold wrap32.
  rewrite Z.mod_small by lia. lia.
Qed.

Lemma div_pow10_succ (v m : Z) :
  0 <= m -> v / 10 ^ (m + 1) = v / 10 / 10 ^ m.
Proof.
  intros Hm.
  rewrite Z.pow_add_r by lia.
  rewrite Z.pow_1_r, Z.mul_comm.
  rewrite Z.div_div by (try lia; apply Z.pow_pos_nonneg; lia).
  reflexivity.
Qed.

Lemma div10_count_exists (v : Z) : 0 <= v -> exists n, is_div10_count v n.
Proof.
  induction v as [v IH] using (well_founded_induction (Z.lt_wf 0)).
  intros Hv.
  destruct (Z_lt_dec 1 v) as [Hgt | Hle].
  - destruct (IH (v / 10)) as [n [Hn [Hdone Hbefore]]].
    + split.
      * apply Z.div_pos; lia.
      * apply Z.div_lt; lia.
    + apply Z.div_pos; lia.
    + exists (n + 1). split; [lia | split].
      * rewrite div_pow10_succ by lia. exact Hdone.
      * intros m Hm.
        destruct (Z.eq_dec m 0) as [-> | Hm0].
        -- rewrite Z.pow_0_r, Z.div_1_r. exact Hgt.
        -- replace m with ((m - 1) + 1) by lia.
           rewrite div_pow10_succ by lia.
           apply Hbefore. lia.
  - exists 0. split; [lia | split].
    + rewrite Z.pow_0_r, Z.div_1_r. lia.
    + intros m Hm. lia.
Qed.

Lemma decimals_loop_count (n : nat) :
  forall value dec,
    is_div10_count value (Z.of_nat n) ->
    - 2 ^ 31 <= dec -> dec + Z.of_nat n < 2 ^ 31 ->
    decimals_loop value dec = dec + Z.of_nat n.
Proof.
  induction n as [| n IH]; intros value dec [_ [Hdone Hbefore]] Hlo Hhi.
  - simpl in Hdone. rewrite Z.div_1_r in Hdone.
    simp decimals_loop.
    destruct (Z_lt_dec 1 value); simpl; lia.
  - assert (Hgt : 1 < value).
    { specialize (Hbefore 0). rewrite Z.pow_0_r, Z.div_1_r in Hbefore.
      apply Hbefore. lia. }
    simp decimals_loop.
    destruct (Z_lt_dec 1 value) as [Hg | Hn]; [simpl | contradiction].
    rewrite wrap32_small by lia.
    rewrite IH; try lia.
    split; [lia | split].
    + rewrite <- div_pow10_succ by lia.
      replace (Z.of_nat n + 1) with (Z.of_nat (S n)) by lia. exact Hdone.
    + intros m Hm. rewrite <- div_pow10_succ by lia.
      apply Hbefore. lia.
Qed.

Lemma div10_count_uint64 (v n : Z) :
  0 <= v < 2 ^ 64 -> is_div10_count v n -> n <= 20.
Proof.
  intros Hv [Hn [_ Hbefore]].
  destruct (Z_le_gt_dec n 20) as [Hle | Hgt]; [exact Hle |].
  specialize (Hbefore 20).
  rewrite Z.div_small in Hbefore by (split; [lia | ]; change (2 ^ 64) with 18446744073709551616 in Hv; change (10 ^ 20) with 100000000000000000000; lia).
  lia.
Qed.

Lemma decimals_is_div10_count (v : Z) :
  0 <= v < 2 ^ 64 -> is_div10_count v (decimals v).
Proof.
  intros Hv.
  destruct (div10_count_exists v) as [n Hn]; [lia |].
  pose proof (div10_count_uint64 v n Hv Hn) as Hbound.
  assert (Hn0 : 0 <= n) by (destruct Hn; assumption).
  unfold decimals.
  rewrite (decimals_loop_count (Z.to_nat n)); rewrite ?Z2Nat.id; try lia.
  - exact Hn.
  - exact Hn.
Qed.

Lemma pow10_pos (k : Z) : 0 <= k -> 0 < 10 ^ k.
Proof. intros. apply Z.pow_pos_nonneg; lia. Qed.

Lemma pow10_le (a b : Z) : 0 <= a <= b -> 10 ^ a <= 10 ^ b.
Proof. intros. apply Z.pow_le_mono_r; lia. Qed.

Lemma div10_count_log10 (v n k : Z) :
  is_div10_count v n -> is_floor_log10 v k ->
  n = if v <? 2 * 10 ^ k then k else k + 1.
Proof.
  intros [Hn [Hdone Hbefore]] [Hk [Hlo Hhi]].
  pose proof (pow10_pos k Hk) as Hpk.
  assert (Hup : n <= k + 1).
  { destruct (Z_le_gt_dec n (k + 1)) as [H | H]; [exact H |].
    specialize (Hbefore (k + 1)).
    rewrite Z.div_small in Hbefore by lia. lia. }
  assert (Hdown : k <= n).
  { destruct (Z_le_gt_dec k n) as [H | H]; [exact H |].
    assert (10 <= v / 10 ^ n); [| lia].
    apply Z.div_le_lower_bound; [apply pow10_pos; lia |].
    rewrite <- (Z.pow_1_r 10) at 2.
    rewrite <- Z.pow_add_r by lia.
    pose proof (pow10_le (n + 1) k). lia. }
  destruct (Z.ltb_spec v (2 * 10 ^ k)) as [Hone | Htwo].
  - destruct (Z.eq_dec n k) as [E | NE]; [exact E |].
    specialize (Hbefore k).
    assert (v / 10 ^ k < 2) by (apply Z.div_lt_upper_bound; lia).
    lia.
  - destruct (Z.eq_dec n (k + 1)) as [E | NE]; [exact E |].
    assert (n = k) by lia. subst n.
    assert (2 <= v / 10 ^ k) by (apply Z.div_le_lower_bound; lia).
    lia.
Qed.

(** C10, as the claim states it, fails at [v = 2]: the integer part of the
    decimal logarithm of 2 is 0, the loop counts 1. *)
Lemma decimals_of_two_is_not_floor_log10 :
  2 <= 2 < 2 ^ 64 /\ is_floor_log10 2 0 /\ decimals 2 = 1 /\ decimals 2 <> 0.
Proof.
  unfold is_floor_log10.
  repeat split; try reflexivity; try discriminate; simpl; lia.
Qed.

(** C10, amended. The loop terminates for every unsigned value [v] and
    its result is the number of integer divisions by ten that bring [v] to
    at most one. That number is 0 for [v <= 1]; for [v >= 2], with [k] the
    integer part of the decimal logarithm of [v], it is [k] when the
    leading decimal digit of [v] is 1 (so for every power of ten) and
    [k + 1] otherwise. *)
Theorem decimals_counts_divisions (v : Z) :
  0 <= v < 2 ^ 64 ->
  is_div10_count v (decimals v) /\
  (v <= 1 -> decimals v = 0) /\
  (forall k, is_floor_log10 v k ->
             decimals v = if v <? 2 * 10 ^ k then k else k + 1).
Proof.
  intros Hv.
  pose proof (decimals_is_div10_count v Hv) as Hcount.
  split; [exact Hcount | split].
  - intros Hle. unfold decimals. simp decimals_loop.
    destruct (Z_lt_dec 1 v); simpl; lia.
  - intros k Hk. exact (div10_count_log10 v (decimals v) k Hcount Hk).
Qed.

Lemma decimals_counts_divisions_witness :
  is_div10_count 10000 (decimals 10000) /\ decimals 10000 = 4.
Proof.
  assert (Hr : 0 <= 10000 < 2 ^ 64) by (simpl; lia).
  destruct (decimals_counts_divisions 10000 Hr) as [Hc [_ Hk]].
  split; [exact Hc |].
  apply (Hk 4). unfold is_floor_log10. simpl. lia.
Defined.

End DefiSettingsSpec.

(** ** The block observer *)

Module ObserverSpec.
Import Observer.

(** *** Traces and runs *)

Lemma wg_dones_app (tr1 tr2 : list effect) :
  wg_dones (tr1 ++ tr2) = (wg_dones tr1 + wg_dones tr2)%nat.
Proof.
  induction tr1 as [| e tr1 IH]; simpl; [reflexivity |].
  destruct e; simpl; rewrite IH; reflexivity.
Qed.

Lemma closes_received_app (tr1 tr2 : list effect) :
  closes_received (tr1 ++ tr2)
  = (closes_received tr1 + closes_received tr2)%nat.
Proof.
  induction tr1 as [| e tr1 IH]; simpl; [reflexivity |].
  destruct e as [| | | [] | |]; simpl; rewrite IH; reflexivity.
Qed.

Lemma unsubscribes_app (tr1 tr2 : list effect) :
  unsubscribes (tr1 ++ tr2) = unsubscribes tr1 ++ unsubscribes tr2.
Proof. apply flat_map_app. Qed.

Lemma open_times_app (tr1 tr2 : list effect) :
  open_times (tr1 ++ tr2) = open_times tr1 ++ open_times tr2.
Proof. apply flat_map_app. Qed.

Lemma timers_created_app (tr1 tr2 : list effect) :
  timers_created (tr1 ++ tr2) = timers_created tr1 ++ timers_created tr2.
Proof. apply flat_map_app. Qed.

Lemma timer_delays_app (tr1 tr2 : list effect) :
  timer_delays (tr1 ++ tr2) = timer_delays tr1 ++ timer_delays tr2.
Proof. apply flat_map_app. Qed.

Lemma timers_received_app (tr1 tr2 : list effect) :
  timers_received (tr1 ++ tr2) = timers_received tr1 ++ timers_received tr2.
Proof. apply flat_map_app. Qed.

Lemma logged_app (tr1 tr2 : list effect) :
  logged (tr1 ++ tr2) = logged tr1 ++ logged tr2.
Proof. apply flat_map_app. Qed.

Create Rewrite HintDb trace.
#[local] Hint Rewrite wg_dones_app closes_received_app unsubscribes_app open_times_app
  timers_created_app timer_delays_app timers_received_app logged_app
  app_nil_r Nat.add_0_r : trace.

Lemma run_app (evs1 evs2 : list event) :
  forall s,
    run s (evs1 ++ evs2)
    = match run s evs1 with
      | Some s' => run s' evs2
      | None => None
      end.
Proof.
  induction evs1 as [| ev evs1 IH]; intros s; simpl.
  - reflexivity.
  - destruct (step s ev); [apply IH | reflexivity].
Qed.

Lemma tick_value : tick = 30000000000.
Proof. reflexivity. Qed.

Lemma tick_pos : 0 < tick.
Proof. rewrite tick_value. lia. Qed.

Lemma spaced_snoc (d : Duration) (l : list Z) (t : Z) :
  spaced d l -> Forall (fun t' => t' + d <= t) l -> spaced d (l ++ [t]).
Proof.
  induction l as [| a l IH]; simpl; intros Hs Hall.
  - split; [constructor | exact I].
  - destruct Hs as [Ha Hs]. inversion Hall; subst.
    split.
    + apply Forall_app. split; [exact Ha | constructor; [assumption | constructor]].
    + apply IH; assumption.
Qed.

Ltac unfold_worker :=
  unfold return_blockSubscription, blockSubscription, loop_head, new_timer,
    deferred, call_blockSubscription, set_now, set_sigClose, set_at, set_sub,
    set_sub_err, emit, bind, ret, log in *;
  simpl in *.

(** Case analysis of a step [H : step s ev = Some s']: one goal for each
    way the step can be taken, with [s'] replaced by its value. *)
Ltac step_cases H :=
  match type of H with
  | step ?s ?ev = Some ?s' =>
      destruct s as [? ? ? ? ? ? ? ?];
      destruct ev as [? | | [? |] | ? | [| |]];
      unfold step in H; unfold_worker;
      repeat match type of H with
        | Some _ = Some _ => injection H as H
        | None = Some _ => discriminate H
        | context [match ?x with _ => _ end] => destruct x eqn:?; simpl in H
        end;
      try subst s'; simpl in *
  end.

(** *** The invariant of the worker *)

Lemma Inv_entry (t0 : Z) : Inv (entry t0).
Proof.
  constructor; simpl; auto; try discriminate.
  - repeat constructor. lia.
  - split; constructor.
Qed.

Ltac inv_auto :=
  simpl; autorewrite with trace; simpl;
  try solve [ auto | discriminate | congruence | lia
            | intros; repeat split; auto; try discriminate; try congruence; try lia ].

Lemma Forall_le_trans (l : list Z) (a b : Z) :
  a <= b -> Forall (fun t => t <= a) l -> Forall (fun t => t <= b) l.
Proof.
  intros Hab. apply Forall_impl. intros t Ht. lia.
Qed.

Lemma Forall_lt_S (l : list nat) (n : nat) :
  Forall (fun id => (id < n)%nat) l -> Forall (fun id => (id < S n)%nat) l.
Proof. apply Forall_impl. intros a Ha. lia. Qed.

Lemma NoDup_snoc_fresh (l : list nat) (n : nat) :
  NoDup l -> Forall (fun id => (id < n)%nat) l -> NoDup (l ++ [n]).
Proof.
  intros Hnd Hlt.
  apply NoDup_app; [exact Hnd | repeat constructor; intros [] | ].
  intros a Ha [<- | []].
  rewrite Forall_forall in Hlt. specialize (Hlt n Ha). lia.
Qed.

Lemma Forall_add_tick (l : list Z) (t : Z) :
  Forall (fun t' => t' <= t) l -> Forall (fun t' => t' + tick <= t + tick) l.
Proof. apply Forall_impl. intros a Ha. lia. Qed.

Lemma seq_0_S (n : nat) : seq 0 (S n) = seq 0 n ++ [n].
Proof. rewrite seq_S. reflexivity. Qed.

Lemma step_Inv (s s' : state) (ev : event) :
  Inv s -> step s ev = Some s' -> Inv s'.
Proof.
  intros HI Hstep. destruct HI.
  destruct s as [now0 closed0 pc0 sub0 err0 subs0 tms0 tr0]; simpl in *.
  unfold step in Hstep; simpl in Hstep.
  destruct ev as [d | | err | err | c].
  - (* time passes *)
    destruct (Z.leb_spec 0 d); [| discriminate].
    injection Hstep as <-. unfold_worker.
    constructor; simpl; auto.
    apply Forall_le_trans with now0; [lia | assumption].
  - (* the shutdown signal fires *)
    destruct closed0; [discriminate |].
    injection Hstep as <-. unfold_worker.
    constructor; simpl; auto.
    intros Hret. destruct (inv_returned0 Hret) as [Hc _]. discriminate.
  - (* EthSubscribe returns *)
    destruct pc0; try discriminate.
    injection Hstep as <-.
    destruct (inv_running0 ltac:(discriminate)) as [Hwg [Hun Hcl]].
    destruct inv_received0 as [Hnd Hlt].
    destruct err as [e |]; unfold_worker.
    + constructor; inv_auto.
      * intros tm [= <-]; simpl. repeat split; auto using Forall_add_tick.
      * rewrite inv_created0. symmetry. apply seq_0_S.
      * apply Forall_app. split; [assumption | repeat constructor].
      * split; [assumption | apply Forall_lt_S; assumption].
    + constructor; inv_auto.
      intros h [= <-]. destruct inv_opens0 as [_ ->]. reflexivity.
  - (* the live subscription reports an error *)
    destruct pc0; try discriminate.
    destruct sub0; try discriminate.
    destruct err0; try discriminate.
    injection Hstep as <-. unfold_worker.
    constructor; simpl; auto.
  - (* a select takes a case *)
    destruct pc0 as [| tm | |]; try discriminate.
    + (* select { sigClose, tm.C } *)
      destruct (inv_running0 ltac:(discriminate)) as [Hwg [Hun Hcl]].
      destruct inv_received0 as [Hnd Hlt].
      destruct (inv_timer0 tm eq_refl) as [Hid [Hdl Hrecv]].
      destruct c; try discriminate.
      * destruct closed0; [| discriminate].
        injection Hstep as <-. rewrite inv_sub0. unfold_worker.
        constructor; inv_auto.
      * destruct (Z.leb_spec (tm_deadline tm) now0) as [Hdue |]; [| discriminate].
        injection Hstep as <-. unfold_worker.
        constructor; inv_auto.
        -- apply Forall_app. split; [assumption | repeat constructor; lia].
        -- apply spaced_snoc; [assumption |].
           revert Hdl. apply Forall_impl. intros t Ht. lia.
        -- split.
           ++ apply NoDup_snoc_fresh; assumption.
           ++ apply Forall_app. split; [assumption | repeat constructor; lia].
        -- rewrite !length_app. simpl. lia.
    + (* select { sigClose, sub.Err() } *)
      destruct (inv_running0 ltac:(discriminate)) as [Hwg [Hun Hcl]].
      destruct inv_received0 as [Hnd Hlt].
      destruct sub0 as [h |]; [| contradiction].
      destruct c; try discriminate.
      * destruct closed0; [| discriminate].
        injection Hstep as <-. unfold_worker.
        constructor; inv_auto.
        intros _. rewrite Hwg, Hun, Hcl. auto.
      * destruct err0 as [e |]; [| discriminate].
        injection Hstep as <-. unfold_worker.
        constructor; inv_auto.
        -- intros tm [= <-]; simpl. repeat split; auto using Forall_add_tick.
        -- rewrite inv_created0. symmetry. apply seq_0_S.
        -- apply Forall_app. split; [assumption | repeat constructor].
        -- split; [assumption | apply Forall_lt_S; assumption].
Qed.

Lemma run_Inv (evs : list event) :
  forall s s', Inv s -> run s evs = Some s' -> Inv s'.
Proof.
  induction evs as [| ev evs IH]; simpl; intros s s' HI Hrun.
  - injection Hrun as <-. exact HI.
  - destruct (step s ev) as [s1 |] eqn:Hstep; [| discriminate].
    apply (IH s1); [| exact Hrun].
    apply (step_Inv s s1 ev); assumption.
Qed.

Lemma observeBlocks_Inv (t0 : Z) (evs : list event) (s : state) :
  observeBlocks t0 evs = Some s -> Inv s.
Proof.
  apply run_Inv. apply Inv_entry.
Qed.

(** The shutdown signal is set by [Shutdown] only. *)
Lemma run_sigClose (evs : list event) :
  forall s s',
    run s evs = Some s' -> sigClose s' = true ->
    sigClose s = true \/ In Shutdown evs.
Proof.
  induction evs as [| ev evs IH]; simpl; intros s s' Hrun Hc.
  - injection Hrun as <-. left. exact Hc.
  - destruct (step s ev) as [s1 |] eqn:Hstep; [| discriminate].
    destruct (IH s1 s' Hrun Hc) as [Hc1 | Hin]; [| right; right; exact Hin].
    clear IH Hrun.
    step_cases Hstep; try (left; congruence).
    right. left. reflexivity.
Qed.

(** The worker returns by the [sigClose] case of a select only. *)
Lemma run_Returned (evs : list event) :
  forall s s',
    run s evs = Some s' -> at_ s' = Returned ->
    at_ s = Returned \/ In (Select CaseSigClose) evs.
Proof.
  induction evs as [| ev evs IH]; simpl; intros s s' Hrun Hret.
  - injection Hrun as <-. left. exact Hret.
  - destruct (step s ev) as [s1 |] eqn:Hstep; [| discriminate].
    destruct (IH s1 s' Hrun Hret) as [Hr1 | Hin]; [| right; right; exact Hin].
    clear IH Hrun.
    step_cases Hstep; try (left; congruence);
      right; left; reflexivity.
Qed.

(** No failure makes the worker return. *)
Lemma failure_keeps_running (s s' : state) (err : error) :
  at_ s <> Returned ->
  step s (SubscribeReturns (Some err)) = Some s'
  \/ step s (StreamFails err) = Some s'
  \/ step s (Select CaseErr) = Some s' ->
  at_ s' <> Returned.
Proof.
  intros Hrun Hstep.
  destruct Hstep as [Hstep | [Hstep | Hstep]].
  - remember (SubscribeReturns (Some err)) as ev eqn:Hev.
    step_cases Hstep; congruence.
  - remember (StreamFails err) as ev eqn:Hev.
    step_cases Hstep; congruence.
  - remember (Select CaseErr) as ev eqn:Hev.
    step_cases Hstep; congruence.
Qed.

(** C1. In every execution of [observeBlocks], under every interleaving of
    open results, stream failures and the shutdown signal: [Unsubscribe] is
    invoked at most once on any handle and [wg.Done] at most once; once the
    worker has returned, [wg.Done] has been called exactly once and
    [Unsubscribe] exactly on the handle held in [sub] at the exit, so not at
    all when [sub] is nil (the open failed, or the handle failed and was
    dropped); while the worker runs neither has been called. *)
Theorem teardown_and_done_exactly_once
    (t0 : Z) (evs : list event) (s : state) :
  observeBlocks t0 evs = Some s ->
  (forall h, (count_occ Nat.eq_dec (unsubscribes (trace s)) h <= 1)%nat)
  /\ (wg_dones (trace s) <= 1)%nat
  /\ (at_ s = Returned ->
        wg_dones (trace s) = 1%nat
        /\ unsubscribes (trace s)
           = match sub s with Some h => [h] | None => [] end)
  /\ (at_ s <> Returned ->
        wg_dones (trace s) = 0%nat /\ unsubscribes (trace s) = []).
Proof.
  intros Hrun.
  pose proof (observeBlocks_Inv t0 evs s Hrun) as HI.
  destruct HI.
  assert (Hcases : at_ s = Returned \/ at_ s <> Returned)
    by (destruct (at_ s); auto; right; discriminate).
  repeat split.
  - intros h. destruct Hcases as [Hret | Hnot].
    + destruct (inv_returned0 Hret) as [_ [_ [-> _]]].
      destruct (sub s) as [h' |]; simpl; [| lia].
      destruct (Nat.eq_dec h' h); lia.
    + destruct (inv_running0 Hnot) as [_ [-> _]]. simpl. lia.
  - destruct Hcases as [Hret | Hnot].
    + destruct (inv_returned0 Hret) as [_ [-> _]]. lia.
    + destruct (inv_running0 Hnot) as [-> _]. lia.
  - apply inv_returned0. assumption.
  - apply inv_returned0. assumption.
  - apply inv_running0. assumption.
  - apply inv_running0. assumption.
Qed.

Lemma teardown_and_done_exactly_once_witness :
  exists s,
    observeBlocks 0 [SubscribeReturns None; Shutdown; Select CaseSigClose]
    = Some s
    /\ wg_dones (trace s) = 1%nat /\ unsubscribes (trace s) = [0%nat].
Proof.
  eexists. split; [reflexivity |].
  apply (teardown_and_done_exactly_once 0
           [SubscribeReturns None; Shutdown; Select CaseSigClose]);
    reflexivity.
Defined.

(** C2. [observeBlocks] returns only on the shutdown signal: in every
    execution that has returned the signal was fired and the worker
    received it in a select; without the signal the worker is still running
    whatever opens and streams failed; and no failure (of an open, of the
    stream, or the receipt of the stream's error) takes a running worker to
    its return. *)
Theorem returns_only_on_shutdown
    (t0 : Z) (evs : list event) (s : state) :
  observeBlocks t0 evs = Some s ->
  (at_ s = Returned ->
     In Shutdown evs /\ In (Select CaseSigClose) evs
     /\ closes_received (trace s) = 1%nat)
  /\ (~ In Shutdown evs -> at_ s <> Returned)
  /\ (forall s1 s2 err,
        at_ s1 <> Returned ->
        step s1 (SubscribeReturns (Some err)) = Some s2
        \/ step s1 (StreamFails err) = Some s2
        \/ step s1 (Select CaseErr) = Some s2 ->
        at_ s2 <> Returned).
Proof.
  intros Hrun.
  pose proof (observeBlocks_Inv t0 evs s Hrun) as HI.
  assert (Hret : at_ s = Returned -> In Shutdown evs).
  { intros Hr. destruct (inv_returned s HI Hr) as [Hc _].
    destruct (run_sigClose evs _ _ Hrun Hc) as [H | H];
      [discriminate H | exact H]. }
  split; [| split].
  - intros Hr. split; [auto | split].
    + destruct (run_Returned evs _ _ Hrun Hr) as [H | H];
        [discriminate H | exact H].
    + apply (inv_returned s HI Hr).
  - intros Hno Hr. apply Hno. auto.
  - intros s1 s2 err. apply failure_keeps_running.
Qed.

Lemma returns_only_on_shutdown_witness :
  In Shutdown [SubscribeReturns (Some "eof"); Shutdown; Select CaseSigClose].
Proof.
  apply (returns_only_on_shutdown 0
           [SubscribeReturns (Some "eof"); Shutdown; Select CaseSigClose]
           _ eq_refl).
  reflexivity.
Defined.

(** C5. The retry delay is the constant 30 seconds. In every execution
    any two calls of [EthSubscribe] are at least that delay apart, so no
    interval shorter than the delay holds two open attempts; every timer is
    created with that delay; every [time.NewTimer] makes a new timer and no
    timer is received from twice; and every open after the first follows
    the expiry of a timer of its own. *)
Theorem one_open_per_retry_delay
    (t0 : Z) (evs : list event) (s : state) :
  observeBlocks t0 evs = Some s ->
  axisHeadsObserverSubscribeTick = 30 * 1000000000
  /\ spaced axisHeadsObserverSubscribeTick (open_times (trace s))
  /\ Forall (fun d => d = axisHeadsObserverSubscribeTick)
        (timer_delays (trace s))
  /\ NoDup (timers_created (trace s))
  /\ NoDup (timers_received (trace s))
  /\ incl (timers_received (trace s)) (timers_created (trace s))
  /\ List.length (open_times (trace s))
     = S (List.length (timers_received (trace s))).
Proof.
  intros Hrun.
  pose proof (observeBlocks_Inv t0 evs s Hrun) as HI.
  destruct HI.
  destruct inv_received0 as [Hnd Hlt].
  repeat split; try assumption.
  - rewrite inv_created0. apply seq_NoDup.
  - intros id Hid. rewrite inv_created0. apply in_seq.
    rewrite Forall_forall in Hlt. specialize (Hlt id Hid). lia.
  - destruct inv_opens0 as [-> ->]. reflexivity.
Qed.

Lemma one_open_per_retry_delay_witness :
  exists s,
    observeBlocks 0
      [SubscribeReturns (Some "refused"); Elapse 30000000000;
       Select CaseTimer; SubscribeReturns (Some "refused")]
    = Some s
    /\ open_times (trace s) = [0; 30000000000]
    /\ spaced axisHeadsObserverSubscribeTick (open_times (trace s)).
Proof.
  eexists. split; [reflexivity | split; [reflexivity |]].
  apply (one_open_per_retry_delay 0
           [SubscribeReturns (Some "refused"); Elapse 30000000000;
            Select CaseTimer; SubscribeReturns (Some "refused")]).
  reflexivity.
Defined.

(** C6, as the claim states it, fails: the shutdown signal fires while the
    open is pending, the open succeeds and the new subscription fails at
    once; both channels of the second select are ready, the select takes
    the error case, and the worker has not returned: it has created a timer
    and waits in the first select, [wg.Done] not called. *)
Lemma shutdown_not_taken_by_next_select :
  exists s s',
    observeBlocks 0 [Shutdown; SubscribeReturns None; StreamFails "eof"]
    = Some s
    /\ sigClose s = true /\ at_ s = SelectSub
    /\ step s (Select CaseErr) = Some s'
    /\ at_ s' = SelectTimer {| tm_id := 0; tm_deadline := 30000000000 |}
    /\ at_ s' <> Returned
    /\ wg_dones (trace s') = 0%nat.
Proof.
  eexists. eexists.
  split; [reflexivity |].
  split; [reflexivity |].
  split; [reflexivity |].
  split; [reflexivity |].
  split; [reflexivity |].
  split; [discriminate | reflexivity].
Qed.

(** C6, amended. Once the shutdown signal has fired, a worker waiting in
    either select is not blocked: the [sigClose] case is ready, and taking
    it makes the worker return after the deferred cleanup ([Unsubscribe] on
    the live handle if there is one, the notice, [wg.Done]). When the other
    channel of that select is not ready (the timer is not yet due, or the
    stream is healthy), [sigClose] is the only case the select can take. *)
Theorem shutdown_taken_when_only_ready_case
    (t0 : Z) (evs : list event) (s : state) :
  observeBlocks t0 evs = Some s ->
  sigClose s = true ->
  waiting s = true ->
  exists s',
    step s (Select CaseSigClose) = Some s'
    /\ at_ s' = Returned
    /\ trace s'
       = trace s ++ [Recv SigClose]
           ++ match sub s with Some h => [Unsubscribe h] | None => [] end
           ++ [Log observer_done; WgDone]
    /\ wg_dones (trace s') = 1%nat
    /\ (other_case_ready s = false ->
        forall c s2, step s (Select c) = Some s2 -> c = CaseSigClose).
Proof.
  intros Hrun Hclosed Hwait.
  pose proof (observeBlocks_Inv t0 evs s Hrun) as HI.
  assert (Hnot : at_ s <> Returned)
    by (unfold waiting in Hwait; destruct (at_ s); discriminate).
  destruct (inv_running s HI Hnot) as [Hwg _].
  destruct s as [now0 closed0 pc0 sub0 err0 subs0 tms0 tr0].
  unfold waiting, other_case_ready in *. simpl in *. subst closed0.
  destruct pc0 as [| tm | |]; try discriminate.
  - eexists. split; [reflexivity |]. unfold_worker.
    destruct sub0 as [h |]; simpl; autorewrite with trace; simpl;
      rewrite <- ?app_assoc; simpl; rewrite Hwg;
      (repeat split; try reflexivity);
      intros Hready [] s2 Hs2; try reflexivity; try discriminate;
      rewrite Hready in Hs2; discriminate.
  - eexists. split; [reflexivity |]. unfold_worker.
    destruct sub0 as [h |]; simpl; autorewrite with trace; simpl;
      rewrite <- ?app_assoc; simpl; rewrite Hwg;
      (repeat split; try reflexivity);
      intros Hready [] s2 Hs2; try reflexivity; try discriminate;
      destruct err0; discriminate.
Qed.

Lemma shutdown_taken_when_only_ready_case_witness :
  exists s',
    step {| now := 5; sigClose := true; at_ := SelectSub; sub := Some 0%nat;
            sub_err := None; subscribes := 1; timers := 0;
            trace := [CallEthSubscribe 0] |}
         (Select CaseSigClose) = Some s'
    /\ at_ s' = Returned.
Proof.
  destruct (shutdown_taken_when_only_ready_case 0
              [SubscribeReturns None; Elapse 5; Shutdown] _ eq_refl
              eq_refl eq_refl) as [s' [Hstep [Hat _]]].
  exists s'. split; assumption.
Defined.

(** *** Retries *)

(** One failed open, from its return to the retry: the worker logs,
    creates a timer, and once [d >= tick] has passed receives from it and
    issues the next call. *)
Lemma failed_open_round (s : state) (err : error) (d : Duration) :
  at_ s = InSubscribe ->
  axisHeadsObserverSubscribeTick <= d ->
  run s [SubscribeReturns (Some err); Elapse d; Select CaseTimer]
  = Some {| now := now s + d; sigClose := sigClose s; at_ := InSubscribe;
            sub := None; sub_err := None;
            subscribes := S (subscribes s); timers := S (timers s);
            trace := trace s
                     ++ [Log (can_not_observe err);
                         NewTimer (timers s) (now s)
                           axisHeadsObserverSubscribeTick;
                         Recv (TimerC (timers s));
                         CallEthSubscribe (now s + d)] |}.
Proof.
  intros Hat Hd.
  pose proof tick_pos as Hpos.
  destruct s as [now0 closed0 pc0 sub0 err0 subs0 tms0 tr0].
  simpl in Hat. subst pc0. simpl. unfold_worker.
  destruct (Z.leb_spec 0 d) as [_ | Hneg]; [| lia]. simpl.
  destruct (Z.leb_spec (now0 + tick) (now0 + d)) as [_ | Hneg]; [| lia].
  rewrite <- !app_assoc. reflexivity.
Qed.

Lemma failing_opens_run (errs : list error) :
  forall s,
    at_ s = InSubscribe ->
    exists s',
      run s (failing_opens errs) = Some s'
      /\ at_ s' = InSubscribe
      /\ sigClose s' = sigClose s
      /\ now s' = now s + Z.of_nat (List.length errs) * tick
      /\ subscribes s' = (subscribes s + List.length errs)%nat
      /\ trace s' = trace s ++ retry_trace (now s) (timers s) errs.
Proof.
  induction errs as [| e errs IH]; intros s Hat.
  - exists s. simpl. rewrite app_nil_r.
    repeat split; try assumption; lia.
  - change (failing_opens (e :: errs))
      with ([SubscribeReturns (Some e); Elapse tick; Select CaseTimer]
              ++ failing_opens errs).
    rewrite run_app, (failed_open_round s e tick Hat) by lia.
    match goal with
    | |- context [run ?s1 (failing_opens errs)] =>
        destruct (IH s1 eq_refl) as [s' [Hrun [Hat' [Hc [Hnow [Hsubs Htr]]]]]]
    end.
    simpl in Hc, Hnow, Hsubs, Htr.
    exists s'. rewrite Hrun, Hat', Hc, Hnow, Hsubs, Htr.
    repeat split.
    + change (List.length (e :: errs)) with (S (List.length errs)). lia.
    + change (List.length (e :: errs)) with (S (List.length errs)). lia.
    + rewrite <- app_assoc. reflexivity.
Qed.

Lemma retry_trace_quiet (errs : list error) :
  forall t id,
    wg_dones (retry_trace t id errs) = 0%nat
    /\ unsubscribes (retry_trace t id errs) = []
    /\ logged (retry_trace t id errs) = map can_not_observe errs
    /\ timer_delays (retry_trace t id errs)
       = repeat tick (List.length errs).
Proof.
  induction errs as [| e errs IH]; intros t id; simpl.
  - auto.
  - destruct (IH (t + tick) (S id)) as [-> [-> [-> ->]]]. auto.
Qed.

(** C3. A failed open is absorbed and retried after the fixed delay, for
    every number of consecutive failures. [blockSubscription] turns the
    error into a nil handle and one critical log entry. From any pending
    open, its failure takes the worker to the first select with a new timer
    of exactly the retry delay, [sub] nil and nothing else done; the retry
    cannot be taken before the delay has passed and is issued once it has.
    And for every list of errors, when the opens fail with them one after
    the other, the worker is still running after the last failure's delay,
    has issued one more open than there were failures, each one delay after
    the one before, has logged each error, and every timer it created had
    the same delay. *)
Theorem failed_open_is_retried (t0 : Z) (errs : list error) :
  (forall err,
     blockSubscription (Err err) = (None, [can_not_observe err]))
  /\ (forall s err,
        at_ s = InSubscribe ->
        exists s',
          step s (SubscribeReturns (Some err)) = Some s'
          /\ sub s' = None
          /\ at_ s' = SelectTimer
                        {| tm_id := timers s;
                           tm_deadline :=
                             now s + axisHeadsObserverSubscribeTick |}
          /\ trace s'
             = trace s ++ [Log (can_not_observe err);
                           NewTimer (timers s) (now s)
                             axisHeadsObserverSubscribeTick]
          /\ (forall d,
                0 <= d < axisHeadsObserverSubscribeTick ->
                run s' [Elapse d; Select CaseTimer] = None)
          /\ (forall d,
                axisHeadsObserverSubscribeTick <= d ->
                exists s'',
                  run s' [Elapse d; Select CaseTimer] = Some s''
                  /\ at_ s'' = InSubscribe
                  /\ subscribes s'' = S (subscribes s)
                  /\ trace s''
                     = trace s' ++ [Recv (TimerC (timers s));
                                    CallEthSubscribe (now s + d)]))
  /\ (exists s,
        observeBlocks t0 (failing_opens errs) = Some s
        /\ at_ s = InSubscribe
        /\ now s
           = t0 + Z.of_nat (List.length errs) * axisHeadsObserverSubscribeTick
        /\ subscribes s = S (List.length errs)
        /\ trace s = CallEthSubscribe t0 :: retry_trace t0 0 errs
        /\ wg_dones (trace s) = 0%nat
        /\ logged (trace s) = map can_not_observe errs
        /\ timer_delays (trace s)
           = repeat axisHeadsObserverSubscribeTick (List.length errs)).
Proof.
  pose proof tick_pos as Hpos.
  split; [| split].
  - intros err. reflexivity.
  - intros s err Hat.
    destruct s as [now0 closed0 pc0 sub0 err0 subs0 tms0 tr0].
    simpl in Hat. subst pc0.
    eexists. split; [reflexivity |]. unfold_worker.
    split; [reflexivity | split; [reflexivity | split]].
    { rewrite <- app_assoc. reflexivity. }
    split.
    + intros d Hd.
      destruct (Z.leb_spec 0 d) as [_ | Hneg]; [| lia]. simpl.
      destruct (Z.leb_spec (now0 + tick) (now0 + d)) as [Hle | _]; [lia |].
      reflexivity.
    + intros d Hd.
      destruct (Z.leb_spec 0 d) as [_ | Hneg]; [| lia]. simpl.
      destruct (Z.leb_spec (now0 + tick) (now0 + d)) as [_ | Hneg]; [| lia].
      eexists. split; [reflexivity |]. simpl.
      repeat split. rewrite <- !app_assoc. reflexivity.
  - destruct (failing_opens_run errs (entry t0) eq_refl)
      as [s [Hrun [Hat [_ [Hnow [Hsubs Htr]]]]]].
    simpl in Hnow, Hsubs, Htr.
    destruct (retry_trace_quiet errs t0 0) as [Hwg [_ [Hlog Hdel]]].
    exists s. unfold observeBlocks.
    rewrite Hrun, Hat, Hnow, Hsubs, Htr. simpl.
    rewrite Hwg, Hlog, Hdel. repeat split.
Qed.

Lemma failed_open_is_retried_witness :
  exists s',
    step (entry 0) (SubscribeReturns (Some "refused")) = Some s'
    /\ sub s' = None
    /\ at_ s' = SelectTimer {| tm_id := 0; tm_deadline := 30000000000 |}.
Proof.
  destruct (failed_open_is_retried 0 []) as [_ [Hstep _]].
  destruct (Hstep (entry 0) "refused" eq_refl)
    as [s' [Hs' [Hsub [Hat _]]]].
  exists s'. repeat split; assumption.
Defined.

(** *** After a wait has begun *)

Lemma step_Later (D : Z) (n : nat) (base : list Z)
    (s s' : state) (ev : event) :
  Later D n base s -> step s ev = Some s' -> Later D n base s'.
Proof.
  intros HL Hstep.
  pose proof tick_pos as Hpos.
  destruct HL as [Htm Hnow [later [Hopens Hlater]] Hsubs Hh].
  step_cases Hstep.
  all: repeat match goal with
         | H : (_ <=? _) = true |- _ => apply Z.leb_le in H
         end.
  all: try match goal with
         | Hdue : tm_deadline ?tm <= ?t |- _ =>
             assert (HD : D <= t) by (specialize (Htm tm eq_refl); lia)
         end.
  all: constructor; simpl; autorewrite with trace; simpl;
    try solve [ assumption
              | lia
              | intros; auto; discriminate
              | exists later; split; assumption ].
  all: try solve [ intros tm' [= <-]; simpl;
                   match goal with
                   | |- _ <= ?t + _ => assert (D <= t) by auto; lia
                   end ].
  all: try solve [ intros _; apply Hh; auto; right; discriminate ].
  all: try solve [ intros [Hf | Hf]; congruence ].
  all: try solve [ intros Hat;
                   match goal with
                   | |- _ <= ?t + _ => assert (D <= t) by auto; lia
                   end ].
  - match goal with
    | |- exists _, _ ++ [?t] = _ /\ _ => exists (later ++ [t])
    end.
    rewrite Hopens, app_assoc.
    split; [reflexivity |].
    apply Forall_app. split; [assumption | repeat constructor; assumption].
Qed.

Lemma run_Later (D : Z) (n : nat) (base : list Z) (evs : list event) :
  forall s s', Later D n base s -> run s evs = Some s' -> Later D n base s'.
Proof.
  induction evs as [| ev evs IH]; simpl; intros s s' HL Hrun.
  - injection Hrun as <-. exact HL.
  - destruct (step s ev) as [s1 |] eqn:Hstep; [| discriminate].
    apply (IH s1); [| exact Hrun].
    apply (step_Later D n base s s1 ev); assumption.
Qed.

(** C4. When the error channel of the live subscription fires, the worker
    receives the error, logs it and sets [sub] to nil without calling
    [Unsubscribe]; it does not reopen but creates a timer of one retry
    delay and waits in the first select. Whatever happens afterwards,
    [Unsubscribe] is never called on the dropped handle, and every open
    issued after the failure is issued at least one retry delay after it. *)
Theorem stream_failure_waits_one_delay
    (t0 : Z) (evs : list event) (s : state) (h : Subscription) (err : error) :
  observeBlocks t0 evs = Some s ->
  at_ s = SelectSub ->
  sub s = Some h ->
  sub_err s = Some err ->
  exists s',
    step s (Select CaseErr) = Some s'
    /\ sub s' = None
    /\ at_ s' = SelectTimer
                  {| tm_id := timers s;
                     tm_deadline := now s + axisHeadsObserverSubscribeTick |}
    /\ trace s'
       = trace s ++ [Recv (SubErr h); Log (subscription_failed err);
                     NewTimer (timers s) (now s)
                       axisHeadsObserverSubscribeTick]
    /\ forall evs' s'',
        run s' evs' = Some s'' ->
        ~ In h (unsubscribes (trace s''))
        /\ exists later,
            open_times (trace s'') = open_times (trace s) ++ later
            /\ Forall (fun t => now s + axisHeadsObserverSubscribeTick <= t)
                  later.
Proof.
  intros Hrun Hat Hsub Herr.
  pose proof (observeBlocks_Inv t0 evs s Hrun) as HI.
  pose proof (inv_handle s HI h Hsub) as Hh.
  destruct s as [now0 closed0 pc0 sub0 err0 subs0 tms0 tr0].
  simpl in *. subst pc0 sub0 err0.
  eexists. split; [reflexivity |]. unfold_worker.
  split; [reflexivity | split; [reflexivity | split]].
  { rewrite <- app_assoc. reflexivity. }
  intros evs' s'' Hrun'.
  match type of Hrun' with
  | run ?s1 _ = _ =>
      assert (HI1 : Inv s1);
      [ apply (step_Inv _ s1 (Select CaseErr) HI); reflexivity
      | assert (HL1 : Later (now0 + tick) subs0 (open_times tr0) s1) ]
  end.
  { constructor; simpl; autorewrite with trace; simpl.
    - intros tm [= <-]. simpl. lia.
    - intros [Hf | Hf]; discriminate.
    - exists []. rewrite app_nil_r. split; [reflexivity | constructor].
    - lia.
    - intros [Hf | Hf]; [discriminate | congruence]. }
  pose proof (run_Inv evs' _ _ HI1 Hrun') as HI2.
  pose proof (run_Later _ _ _ evs' _ _ HL1 Hrun') as HL2.
  split; [| apply (lat_opens _ _ _ _ HL2)].
  intros Hin.
  assert (Hlive : sub s'' <> None -> sub s'' <> Some h).
  { intros Hsome Heq.
    pose proof (lat_handle _ _ _ _ HL2 (or_intror Hsome)) as Hlt.
    pose proof (inv_handle _ HI2 h Heq). lia. }
  destruct (at_ s'') eqn:Hat''.
  4: { destruct (inv_returned _ HI2 Hat'') as [_ [_ [Hun _]]].
       rewrite Hun in Hin.
       destruct (sub s'') as [h'' |] eqn:Hs''; [| exact Hin].
       destruct Hin as [-> | []]. apply Hlive; congruence. }
  all: destruct (inv_running _ HI2) as [_ [Hun _]];
    [rewrite Hat''; discriminate | rewrite Hun in Hin; exact Hin].
Qed.

Lemma stream_failure_waits_one_delay_witness :
  exists s',
    step {| now := 7; sigClose := false; at_ := SelectSub; sub := Some 0%nat;
            sub_err := Some "eof"; subscribes := 1; timers := 0;
            trace := [CallEthSubscribe 0] |}
         (Select CaseErr) = Some s'
    /\ sub s' = None
    /\ at_ s' = SelectTimer {| tm_id := 0; tm_deadline := 30000000007 |}.
Proof.
  destruct (stream_failure_waits_one_delay 0
              [SubscribeReturns None; Elapse 7; StreamFails "eof"]
              _ 0%nat "eof" eq_refl eq_refl eq_refl eq_refl)
    as [s' [Hstep [Hsub [Hat _]]]].
  exists s'. repeat split; assumption.
Defined.

(** *** Opens that fail, then one that succeeds *)

Lemma open_results_app (evs1 evs2 : list event) :
  open_results (evs1 ++ evs2) = open_results evs1 ++ open_results evs2.
Proof. apply flat_map_app. Qed.

Lemma step_Retrying (rs : list (option error)) (s s' : state) (ev : event) :
  Retrying rs s -> is_shutdown ev = false -> ev <> SubscribeReturns None ->
  step s ev = Some s' ->
  Retrying (rs ++ open_results [ev]) s'.
Proof.
  intros [Hc Hat] Hsh Hok Hstep.
  step_cases Hstep; try discriminate; try contradiction; subst;
    unfold Retrying; simpl; rewrite ?app_nil_r;
    try solve [ split; assumption ].
  - (* the open fails *)
    split; [assumption |]. rewrite length_app. simpl. lia.
  - (* the timer is received *)
    split; [assumption |]. lia.
Qed.

Lemma run_Retrying (t0 : Z) (evs : list event) :
  forall s,
    observeBlocks t0 evs = Some s ->
    existsb is_shutdown evs = false ->
    Forall (fun r => r <> None) (open_results evs) ->
    Retrying (open_results evs) s.
Proof.
  unfold observeBlocks.
  induction evs as [| ev evs IH] using rev_ind; intros s Hrun Hsh Hres.
  - injection Hrun as <-. split; reflexivity.
  - rewrite run_app in Hrun.
    destruct (run (entry t0) evs) as [s1 |] eqn:Hrun1; [| discriminate].
    simpl in Hrun.
    destruct (step s1 ev) as [s2 |] eqn:Hstep; [| discriminate].
    injection Hrun as <-.
    rewrite existsb_app in Hsh. apply orb_false_iff in Hsh.
    destruct Hsh as [Hsh1 Hsh2]. simpl in Hsh2.
    rewrite orb_false_r in Hsh2.
    rewrite open_results_app in Hres |- *.
    apply Forall_app in Hres. destruct Hres as [Hres1 Hres2].
    apply (step_Retrying _ s1 s2 ev); auto.
    intros ->. simpl in Hres2. inversion Hres2; subst. congruence.
Qed.

(** A schedule whose opens fail with [errs] and then succeed splits at
    the return of the successful open. *)
Lemma open_results_split (evs : list event) :
  forall errs rest,
    open_results evs = map Some errs ++ None :: rest ->
    exists evs1 evs2,
      evs = evs1 ++ SubscribeReturns None :: evs2
      /\ open_results evs1 = map Some errs.
Proof.
  induction evs as [| ev evs IH]; intros errs rest Hres.
  - destruct errs; discriminate.
  - destruct ev as [d | | r | e | c];
      try (destruct (IH errs rest Hres) as [evs1 [evs2 [-> Hr]]];
           eexists (_ :: evs1), evs2; split; [reflexivity | exact Hr]).
    simpl in Hres. destruct errs as [| e errs]; simpl in Hres.
    + injection Hres as -> _. exists [], evs. split; reflexivity.
    + injection Hres as -> Hres.
      destruct (IH errs rest Hres) as [evs1 [evs2 [-> Hr]]].
      exists (SubscribeReturns (Some e) :: evs1), evs2.
      split; [reflexivity |]. simpl. rewrite Hr. reflexivity.
Qed.

Lemma map_Some_not_None (errs : list error) :
  Forall (fun r => r <> None) (map (@Some error) errs).
Proof.
  induction errs as [| e errs IH]; simpl; constructor.
  - discriminate.
  - exact IH.
Qed.

Lemma open_times_retry_trace (errs : list error) :
  forall t id,
    open_times (retry_trace t id errs)
    = map (fun i => t + Z.of_nat i * tick) (seq 1 (List.length errs)).
Proof.
  induction errs as [| e errs IH]; intros t id; simpl.
  - reflexivity.
  - rewrite IH, <- (seq_shift (List.length errs) 1), map_map.
    change (t + 30000000000) with (t + tick).
    apply (f_equal (cons (t + tick))).
    apply map_ext. intros i. lia.
Qed.

(** C7. When the opens fail K times and then succeed and the shutdown
    signal does not fire: such an execution exists for every K (the one in
    which every timer is received the instant it is due reaches the second
    select, subscribed, K retry delays after the start, the opens issued
    one delay apart); and every such execution passes, at the return of the
    successful open, through a state in which the worker is subscribed, on
    the handle of open number K, after exactly K retries (K timers
    received, K + 1 opens), any two opens at least the retry delay apart,
    the worker still running. *)
Theorem subscribed_after_K_retries (t0 : Z) (errs : list error) :
  (exists s,
     observeBlocks t0 (failing_opens errs ++ [SubscribeReturns None]) = Some s
     /\ at_ s = SelectSub
     /\ sub s = Some (List.length errs)
     /\ now s
        = t0 + Z.of_nat (List.length errs) * axisHeadsObserverSubscribeTick
     /\ open_times (trace s)
        = map (fun i => t0 + Z.of_nat i * axisHeadsObserverSubscribeTick)
            (seq 0 (S (List.length errs))))
  /\ (forall evs rest s,
        observeBlocks t0 evs = Some s ->
        existsb is_shutdown evs = false ->
        open_results evs = map Some errs ++ None :: rest ->
        exists evs1 evs2 s1,
          evs = evs1 ++ evs2
          /\ observeBlocks t0 evs1 = Some s1
          /\ at_ s1 = SelectSub
          /\ sub s1 = Some (List.length errs)
          /\ List.length (open_times (trace s1)) = S (List.length errs)
          /\ List.length (timers_received (trace s1)) = List.length errs
          /\ spaced axisHeadsObserverSubscribeTick (open_times (trace s1))
          /\ wg_dones (trace s1) = 0%nat).
Proof.
  split.
  - destruct (failing_opens_run errs (entry t0) eq_refl)
      as [s1 [Hrun [Hat [_ [Hnow [Hsubs Htr]]]]]].
    simpl in Hnow, Hsubs, Htr.
    unfold observeBlocks. rewrite run_app, Hrun.
    destruct s1 as [now1 closed1 pc1 sub1 err1 subs1 tms1 tr1].
    simpl in *. subst pc1 now1 subs1 tr1.
    eexists. split; [reflexivity |]. unfold_worker.
    repeat split.
    rewrite app_nil_r, open_times_retry_trace. simpl.
    f_equal. lia.
  - intros evs rest s Hrun Hsh Hres.
    destruct (open_results_split evs errs rest Hres)
      as [evs1 [evs2 [-> Hres1]]].
    rewrite existsb_app in Hsh. apply orb_false_iff in Hsh.
    destruct Hsh as [Hsh1 _].
    unfold observeBlocks in Hrun. rewrite run_app in Hrun.
    destruct (run (entry t0) evs1) as [s1 |] eqn:Hrun1; [| discriminate].
    assert (Hretry : Retrying (open_results evs1) s1).
    { apply (run_Retrying t0 evs1 s1 Hrun1 Hsh1).
      rewrite Hres1. apply map_Some_not_None. }
    destruct Hretry as [_ Hat1]. rewrite Hres1, length_map in Hat1.
    cbn [run] in Hrun.
    destruct (step s1 (SubscribeReturns None)) as [s2 |] eqn:Hstep;
      [| discriminate].
    exists (evs1 ++ [SubscribeReturns None]), evs2, s2.
    assert (Hrun2 : observeBlocks t0 (evs1 ++ [SubscribeReturns None])
                    = Some s2).
    { unfold observeBlocks. rewrite run_app, Hrun1. cbn [run].
      rewrite Hstep. reflexivity. }
    pose proof (observeBlocks_Inv _ _ _ Hrun2) as HI.
    split; [rewrite <- app_assoc; reflexivity |].
    split; [exact Hrun2 |].
    assert (Hs2 : at_ s2 = SelectSub
                  /\ sub s2 = Some (List.length errs)
                  /\ subscribes s2 = S (List.length errs)).
    { destruct s1 as [now1 closed1 pc1 sub1 err1 subs1 tms1 tr1].
      simpl in Hat1, Hstep.
      destruct pc1; try discriminate; try contradiction.
      injection Hstep as <-. subst subs1. unfold_worker. auto. }
    destruct Hs2 as [Hat2 [Hsub2 Hsubs2]].
    destruct (inv_opens s2 HI) as [Hopens Hrecv].
    assert (Hnot : at_ s2 <> Returned) by (rewrite Hat2; discriminate).
    destruct (inv_running s2 HI Hnot) as [Hwg _].
    repeat split; try assumption; try lia.
    apply (inv_spaced s2 HI).
Qed.

Lemma subscribed_after_K_retries_witness :
  exists evs1 evs2 s1,
    [SubscribeReturns (Some "refused"); Elapse 31000000000;
     Select CaseTimer; Elapse 2; SubscribeReturns None;
     StreamFails "eof"; Select CaseErr] = evs1 ++ evs2
    /\ observeBlocks 0 evs1 = Some s1
    /\ at_ s1 = SelectSub /\ sub s1 = Some 1%nat.
Proof.
  destruct (subscribed_after_K_retries 0 ["refused"]) as [_ Hall].
  destruct (Hall [SubscribeReturns (Some "refused"); Elapse 31000000000;
                  Select CaseTimer; Elapse 2; SubscribeReturns None;
                  StreamFails "eof"; Select CaseErr]
              [] _ eq_refl eq_refl eq_refl)
    as [evs1 [evs2 [s1 [Hsplit [Hrun [Hat [Hsub _]]]]]]].
  exists evs1, evs2, s1. repeat split; assumption.
Defined.

End ObserverSpec.

(** ** Version, epochs and the locking switch *)

Module SfcBaseSpec.
Import SfcBase.

Lemma byteZ_range (b : Byte.byte) : 0 <= byteZ b < 256.
Proof.
  unfold byteZ. pose proof (Byte.to_N_bounded b). lia.
Qed.

Lemma byteZ_inj (a b : Byte.byte) : byteZ a = byteZ b -> a = b.
Proof.
  unfold byteZ. intros H. apply N2Z.inj in H.
  pose proof (Byte.of_to_N a) as Ha. pose proof (Byte.of_to_N b) as Hb.
  rewrite H in Ha. congruence.
Qed.

(** A small number put below a shifted one: no bit is shared, so the
    bitwise or is the sum. *)
Lemma lor_shiftl_low (a b n : Z) :
  0 <= n -> 0 <= b < 2 ^ n -> Z.lor (Z.shiftl a n) b = a * 2 ^ n + b.
Proof.
  intros Hn Hb.
  assert (Hland : Z.land (Z.shiftl a n) b = 0).
  { apply Z.bits_inj'. intros i Hi.
    rewrite Z.land_spec, Z.bits_0.
    destruct (Z_lt_dec i n) as [Hlt | Hge].
    - rewrite Z.shiftl_spec_low by exact Hlt. reflexivity.
    - rewrite <- (Z.mod_small b (2 ^ n)) by exact Hb.
      rewrite Z.mod_pow2_bits_high by lia.
      apply andb_false_r. }
  rewrite <- Z.lxor_lor by exact Hland.
  rewrite <- Z.add_nocarry_lxor by exact Hland.
  rewrite Z.shiftl_mul_pow2 by exact Hn. reflexivity.
Qed.

Lemma shl64_byte (b n : Z) :
  0 <= b < 256 -> 0 <= n <= 16 -> shl64 b n = b * 2 ^ n.
Proof.
  intros Hb Hn. unfold shl64.
  rewrite Z.shiftl_mul_pow2 by lia.
  assert (2 ^ n <= 2 ^ 16) by (apply Z.pow_le_mono_r; lia).
  assert (0 < 2 ^ n) by (apply Z.pow_pos_nonneg; lia).
  apply Z.mod_small.
  change (2 ^ 16) with 65536 in *. change (2 ^ 64) with 18446744073709551616.
  nia.
Qed.

(** The number [SfcVersion] makes of a version. *)
Lemma SfcVersion_value (sfc : SfcContract) (v0 v1 v2 : Byte.byte) :
  sfc_Version sfc = Ok (v0, v1, v2) ->
  fst (SfcVersion sfc)
  = (byteZ v0 * 65536 + byteZ v1 * 256 + byteZ v2, None).
Proof.
  intros Hver. unfold SfcVersion. rewrite Hver. simpl.
  pose proof (byteZ_range v0) as H0.
  pose proof (byteZ_range v1) as H1.
  pose proof (byteZ_range v2) as H2.
  rewrite !shl64_byte by lia.
  change (2 ^ 16) with 65536. change (2 ^ 8) with 256.
  replace (byteZ v0 * 65536) with (Z.shiftl (byteZ v0) 16)
    by (rewrite Z.shiftl_mul_pow2 by lia; reflexivity).
  rewrite (lor_shiftl_low (byteZ v0) (byteZ v1 * 256) 16)
    by (change (2 ^ 16) with 65536; lia).
  change (2 ^ 16) with 65536.
  replace (byteZ v0 * 65536 + byteZ v1 * 256)
    with (Z.shiftl (byteZ v0 * 256 + byteZ v1) 8)
    by (rewrite Z.shiftl_mul_pow2 by lia; change (2 ^ 8) with 256; lia).
  rewrite (lor_shiftl_low (byteZ v0 * 256 + byteZ v1) (byteZ v2) 8)
    by (change (2 ^ 8) with 256; lia).
  change (2 ^ 8) with 256.
  rewrite Z.shiftl_mul_pow2 by lia. change (2 ^ 16) with 65536.
  f_equal. lia.
Qed.

(** X1. On success [SfcVersion] returns the three version bytes as one
    number below 2^24 with no error, from which each byte is read back by
    shifting and masking. *)
Theorem SfcVersion_round_trip
    (sfc : SfcContract) (v0 v1 v2 : Byte.byte) :
  sfc_Version sfc = Ok (v0, v1, v2) ->
  exists n,
    fst (SfcVersion sfc) = (n, None)
    /\ 0 <= n < 2 ^ 24
    /\ Z.shiftr n 16 = byteZ v0
    /\ Z.land (Z.shiftr n 8) 255 = byteZ v1
    /\ Z.land n 255 = byteZ v2.
Proof.
  intros Hver.
  pose proof (byteZ_range v0) as H0.
  pose proof (byteZ_range v1) as H1.
  pose proof (byteZ_range v2) as H2.
  exists (byteZ v0 * 65536 + byteZ v1 * 256 + byteZ v2).
  split; [apply SfcVersion_value; exact Hver |].
  split; [change (2 ^ 24) with 16777216; lia |].
  change 255 with (Z.ones 8).
  rewrite !Z.land_ones, !Z.shiftr_div_pow2 by lia.
  change (2 ^ 16) with 65536. change (2 ^ 8) with 256.
  repeat split.
  - symmetry. apply Z.div_unique with (r := byteZ v1 * 256 + byteZ v2); lia.
  - replace ((byteZ v0 * 65536 + byteZ v1 * 256 + byteZ v2) / 256)
      with (byteZ v0 * 256 + byteZ v1)
      by (apply Z.div_unique with (r := byteZ v2); lia).
    symmetry. apply Z.mod_unique with (q := byteZ v0); lia.
  - symmetry.
    apply Z.mod_unique with (q := byteZ v0 * 256 + byteZ v1); lia.
Qed.

Lemma SfcVersion_round_trip_witness :
  exists n,
    fst (SfcVersion (contract_of_version (Byte.x03, Byte.x00, Byte.x01)))
    = (n, None)
    /\ 0 <= n < 2 ^ 24.
Proof.
  destruct (SfcVersion_round_trip
              (contract_of_version (Byte.x03, Byte.x00, Byte.x01))
              Byte.x03 Byte.x00 Byte.x01 eq_refl)
    as [n [Hn [Hr _]]].
  exists n. split; assumption.
Defined.

(** X2. The numbers [SfcVersion] returns order the versions as the
    triples (major, minor, patch) are ordered lexicographically, and two
    contracts get the same number only when they have the same version. *)
Theorem SfcVersion_orders_versions
    (sfc sfc' : SfcContract) (a0 a1 a2 b0 b1 b2 : Byte.byte) :
  sfc_Version sfc = Ok (a0, a1, a2) ->
  sfc_Version sfc' = Ok (b0, b1, b2) ->
  (fst (fst (SfcVersion sfc)) <= fst (fst (SfcVersion sfc'))
   <-> version_le (byteZ a0, byteZ a1, byteZ a2)
                  (byteZ b0, byteZ b1, byteZ b2))
  /\ (fst (fst (SfcVersion sfc)) = fst (fst (SfcVersion sfc'))
      -> (a0, a1, a2) = (b0, b1, b2)).
Proof.
  intros Ha Hb.
  rewrite (SfcVersion_value sfc a0 a1 a2 Ha).
  rewrite (SfcVersion_value sfc' b0 b1 b2 Hb).
  simpl.
  pose proof (byteZ_range a0). pose proof (byteZ_range a1).
  pose proof (byteZ_range a2). pose proof (byteZ_range b0).
  pose proof (byteZ_range b1). pose proof (byteZ_range b2).
  split.
  - unfold version_le. lia.
  - intros Heq.
    assert (byteZ a0 = byteZ b0) by lia.
    assert (byteZ a1 = byteZ b1) by lia.
    assert (byteZ a2 = byteZ b2) by lia.
    f_equal; [f_equal |]; apply byteZ_inj; assumption.
Qed.

Lemma SfcVersion_orders_versions_witness :
  fst (fst (SfcVersion (contract_of_version (Byte.x02, Byte.xff, Byte.x09))))
  <= fst (fst (SfcVersion (contract_of_version (Byte.x03, Byte.x00, Byte.x01)))).
Proof.
  apply (SfcVersion_orders_versions
           (contract_of_version (Byte.x02, Byte.xff, Byte.x09))
           (contract_of_version (Byte.x03, Byte.x00, Byte.x01))
           Byte.x02 Byte.xff Byte.x09 Byte.x03 Byte.x00 Byte.x01
           eq_refl eq_refl).
  unfold version_le. left. vm_compute. reflexivity.
Defined.

Lemma Uint64_small (x : Z) : 0 <= x < 2 ^ 64 -> Uint64 x = x.
Proof.
  intros H. unfold Uint64.
  rewrite Z.abs_eq by lia. apply Z.mod_small. exact H.
Qed.

(** X3. [LockingAllowed] fails closed and switches at epoch 1600: when the
    contract call fails it returns false with that error; when the call
    returns a sealed epoch that fits 64 bits it returns, without error,
    true exactly from epoch 1600 on. *)
Theorem LockingAllowed_from_first_lock_epoch (sfc : SfcContract) :
  (forall err,
     sfc_CurrentSealedEpoch sfc = Err err ->
     fst (LockingAllowed sfc) = (false, Some err))
  /\ (forall epoch,
        sfc_CurrentSealedEpoch sfc = Ok epoch ->
        0 <= epoch < 2 ^ 64 ->
        exists allowed,
          fst (LockingAllowed sfc) = (allowed, None)
          /\ (allowed = true <-> 1600 <= epoch)).
Proof.
  split.
  - intros err Herr. unfold LockingAllowed. rewrite Herr. reflexivity.
  - intros epoch Hok Hrange.
    unfold LockingAllowed. rewrite Hok. simpl.
    rewrite Uint64_small by exact Hrange.
    eexists. split; [reflexivity |].
    unfold sfcFirstLockEpoch. apply Z.leb_le.
Qed.

Lemma LockingAllowed_from_first_lock_epoch_witness :
  exists allowed,
    fst (LockingAllowed
           {| sfc_Version := Err "none";
              sfc_CurrentSealedEpoch := Ok 1599;
              sfc_GetEpochSnapshot := fun _ => Err "none" |})
    = (allowed, None)
    /\ (allowed = true <-> 1600 <= 1599).
Proof.
  apply (LockingAllowed_from_first_lock_epoch
           {| sfc_Version := Err "none";
              sfc_CurrentSealedEpoch := Ok 1599;
              sfc_GetEpochSnapshot := fun _ => Err "none" |}).
  - reflexivity.
  - simpl. lia.
Defined.

Lemma to_int64_cases (id : Z) :
  0 <= id < 2 ^ 64 ->
  to_int64 id = if id <? 2 ^ 63 then id else id - 2 ^ 64.
Proof.
  intros H. unfold to_int64.
  change (2 ^ 64) with 18446744073709551616 in *.
  change (2 ^ 63) with 9223372036854775808 in *.
  destruct (Z.ltb_spec id 9223372036854775808) as [Hlt | Hge].
  - rewrite Z.mod_small by lia. lia.
  - replace (id + 9223372036854775808)
      with (id - 9223372036854775808 + 1 * 18446744073709551616) by lia.
    rewrite Z.mod_add by lia.
    rewrite Z.mod_small by lia. lia.
Qed.

(** X4. [Epoch] asks the contract for the snapshot at [int64(id)]: at
    [id] itself below 2^63, and at the negative number [id - 2^64] from
    2^63 on. Whatever the contract answers there is passed on: its error
    with a nil epoch, or an epoch that carries the [id] asked for and the
    amounts of the snapshot. *)
Theorem Epoch_asks_for_signed_id (sfc : SfcContract) (id : Z) :
  0 <= id < 2 ^ 64 ->
  fst (Epoch sfc id)
  = match sfc_GetEpochSnapshot sfc (if id <? 2 ^ 63 then id else id - 2 ^ 64)
    with
    | Err err => (None, Some err)
    | Ok epo =>
        (Some {| ep_Id := id;
                 ep_EndTime := Uint64 (es_EndTime epo);
                 ep_EpochFee := es_EpochFee epo;
                 ep_TotalBaseRewardWeight := es_TotalBaseRewardWeight epo;
                 ep_TotalTxRewardWeight := es_TotalTxRewardWeight epo;
                 ep_BaseRewardPerSecond := es_BaseRewardPerSecond epo;
                 ep_StakeTotalAmount := es_TotalStake epo;
                 ep_TotalSupply := es_TotalSupply epo |},
         None)
    end.
Proof.
  intros Hid. unfold Epoch.
  rewrite (to_int64_cases id Hid).
  destruct (sfc_GetEpochSnapshot sfc (if id <? 2 ^ 63 then id else id - 2 ^ 64));
    reflexivity.
Qed.

Lemma Epoch_asks_for_signed_id_witness :
  fst (Epoch {| sfc_Version := Err "none";
              sfc_CurrentSealedEpoch := Ok 0;
                sfc_GetEpochSnapshot :=
                  fun n => if n <? 0 then Err "negative epoch"
                           else Err "unknown epoch" |}
         (2 ^ 64 - 1))
  = (None, Some "negative epoch").
Proof.
  rewrite Epoch_asks_for_signed_id.
  - reflexivity.
  - simpl. lia.
Defined.

End SfcBaseSpec.

(** ** The penalty, the lock and the tokenizer *)

Module LocksSpec.
Import Delegations Locks.

Lemma SetBytes_from (data : list Byte.byte) :
  forall acc,
    0 <= acc ->
    0 <= fold_left (fun a b => a * 256 + Z.of_N (Byte.to_N b)) data acc
      < (acc + 1) * 256 ^ Z.of_nat (List.length data).
Proof.
  induction data as [| b data IH]; intros acc Hacc.
  - simpl. lia.
  - cbn [fold_left List.length].
    pose proof (Byte.to_N_bounded b) as Hb.
    specialize (IH (acc * 256 + Z.of_N (Byte.to_N b)) ltac:(lia)).
    rewrite Nat2Z.inj_succ, Z.pow_succ_r by lia.
    assert (0 < 256 ^ Z.of_nat (List.length data))
      by (apply Z.pow_pos_nonneg; lia).
    split; [lia | nia].
Qed.

Lemma SetBytes_range (data : list Byte.byte) :
  0 <= SetBytes data < 256 ^ Z.of_nat (List.length data).
Proof.
  pose proof (SetBytes_from data 0 ltac:(lia)) as H.
  unfold SetBytes. lia.
Qed.

(** X5. [StakeUnlockPenalty] returns a penalty exactly when packing
    succeeds and the contract call answers with 32 bytes; the penalty is
    then those bytes read as a big-endian number, so it lies in
    [0, 2^256), and the error is nil. *)
Theorem StakeUnlockPenalty_value
    (axis : AxisBridge) (addr : Address) (valID amount v : Z) :
  (fst (fst (StakeUnlockPenalty axis addr valID amount)) = Some v
   <-> exists cd data,
         SfcAbi_Pack axis "unlockStake" [valID; amount] = Ok cd
         /\ eth_CallContract axis
              {| From := addr; To := Some (sfcConfig_SFCContract axis);
                 Data := cd |} = Ok data
         /\ List.length data = 32%nat
         /\ v = SetBytes data)
  /\ (fst (fst (StakeUnlockPenalty axis addr valID amount)) = Some v ->
      snd (fst (StakeUnlockPenalty axis addr valID amount)) = None
      /\ 0 <= v < 2 ^ 256).
Proof.
  unfold StakeUnlockPenalty.
  destruct (SfcAbi_Pack axis "unlockStake" [valID; amount]) as [cd | e].
  2: { split; [split |]; [discriminate | | discriminate].
       intros [cd [data [H _]]]. discriminate. }
  destruct (eth_CallContract axis _) as [data | e] eqn:Hcall.
  2: { split; [split |]; [discriminate | | discriminate].
       intros [cd' [data [H [H' _]]]]. injection H as <-. congruence. }
  destruct (Nat.eqb_spec (List.length data) 32) as [Hlen | Hlen]; simpl.
  - split; [split |].
    + intros [= <-]. exists cd, data. auto.
    + intros [cd' [data' [H [H' [_ ->]]]]]. injection H as <-.
      rewrite Hcall in H'. injection H' as <-. reflexivity.
    + intros [= <-]. split; [reflexivity |].
      pose proof (SetBytes_range data) as Hr. rewrite Hlen in Hr.
      exact Hr.
  - split; [split |]; [discriminate | | discriminate].
    intros [cd' [data' [H [H' [Hl _]]]]]. injection H as <-.
    rewrite Hcall in H'. injection H' as <-. contradiction.
Qed.

Lemma StakeUnlockPenalty_value_witness :
  snd (fst (StakeUnlockPenalty seven_bridge 1 2 3)) = None
  /\ 0 <= 7 < 2 ^ 256.
Proof.
  apply (StakeUnlockPenalty_value seven_bridge 1 2 3 7).
  reflexivity.
Defined.

(** X6. [StakeUnlockPenalty] never returns a penalty together with an
    error; it returns an error exactly when packing or the contract call
    fails, and then it is the error of the step that failed. *)
Theorem StakeUnlockPenalty_error
    (axis : AxisBridge) (addr : Address) (valID amount : Z) (e : error) :
  (snd (fst (StakeUnlockPenalty axis addr valID amount)) = Some e
   <-> SfcAbi_Pack axis "unlockStake" [valID; amount] = Err e
       \/ exists cd,
            SfcAbi_Pack axis "unlockStake" [valID; amount] = Ok cd
            /\ eth_CallContract axis
                 {| From := addr; To := Some (sfcConfig_SFCContract axis);
                    Data := cd |} = Err e)
  /\ (snd (fst (StakeUnlockPenalty axis addr valID amount)) = Some e ->
      fst (fst (StakeUnlockPenalty axis addr valID amount)) = None).
Proof.
  unfold StakeUnlockPenalty.
  destruct (SfcAbi_Pack axis "unlockStake" [valID; amount]) as [cd | e0].
  2: { simpl. split; [split |]; [| | reflexivity].
       - intros [= <-]. left. reflexivity.
       - intros [[= <-] | [cd [H _]]]; [reflexivity | discriminate]. }
  destruct (eth_CallContract axis _) as [data | e0] eqn:Hcall.
  2: { simpl. split; [split |]; [| | reflexivity].
       - intros [= <-]. right. exists cd. auto.
       - intros [H | [cd' [H H']]]; [discriminate |].
         injection H as <-. congruence. }
  destruct (Nat.eqb_spec (List.length data) 32) as [Hlen | Hlen]; simpl;
    (split; [split |]; [discriminate | | discriminate]);
    intros [H | [cd' [H H']]]; try discriminate;
    injection H as <-; congruence.
Qed.

Lemma StakeUnlockPenalty_error_witness :
  fst (fst (StakeUnlockPenalty failing_bridge 1 2 3)) = None.
Proof.
  apply (StakeUnlockPenalty_error failing_bridge 1 2 3 "reverted").
  reflexivity.
Defined.

(** X7. [DelegationLock] always returns exactly one of a lock and an
    error, and the error exactly when the query returns an error or a lock
    without one of its two times. *)
Theorem DelegationLock_lock_or_error
    (addr : Address) (valID : Z) (call : outcome (result LockupInfo)) :
  (fst (fst (DelegationLock addr valID call)) = None
   <-> snd (fst (DelegationLock addr valID call)) <> None)
  /\ (snd (fst (DelegationLock addr valID call)) <> None
      <-> (exists err, call = Returns (Err err))
          \/ (exists lock, call = Returns (Ok lock) /\ has_times lock = false)).
Proof.
  unfold DelegationLock, DelegationLock_body, has_times.
  destruct call as [[lock | err] |]; simpl;
    [ destruct (li_FromEpoch lock) as [from |] eqn:Hf;
      destruct (li_EndTime lock) as [until |] eqn:Hu; simpl;
      try (destruct (li_LockedStake lock), (li_Duration lock); simpl)
    | | ].
  all: repeat match goal with
         | |- _ /\ _ => split
         | |- _ <-> _ => split
         end.
  all: try solve [ intros; congruence ].
  all: try solve [ intros _; discriminate ].
  all: try solve [ intros _; left; eexists; reflexivity ].
  all: try solve [ intros _; right; exists lock; rewrite Hf, ?Hu; auto ].
  all: try solve [ intros [[e H] | [l [H H']]]; try discriminate;
                   injection H as <-; rewrite Hf, ?Hu in H'; discriminate ].
Qed.

(** X8. A panic in [DelegationLock] (of the contract call, or on a lock
    that has its times but lacks the amount or the duration) is recovered
    into an empty lock with a nil error: exactly what a lock whose four
    numbers are zero yields. *)
Theorem DelegationLock_panic_is_empty_lock
    (addr : Address) (valID : Z) (call : outcome (result LockupInfo)) :
  call = Panics
  \/ (exists lock,
        call = Returns (Ok lock)
        /\ has_times lock = true /\ has_amounts lock = false) ->
  fst (DelegationLock addr valID call) = (Some empty_lock, None)
  /\ fst (DelegationLock addr valID
            (Returns (Ok {| li_LockedStake := Some 0; li_FromEpoch := Some 0;
                            li_EndTime := Some 0; li_Duration := Some 0 |})))
     = (Some empty_lock, None).
Proof.
  intros Hcall. split; [| reflexivity].
  destruct Hcall as [-> | [lock [-> [Htimes Hamounts]]]]; [reflexivity |].
  unfold DelegationLock, DelegationLock_body, has_times, has_amounts in *.
  destruct (li_FromEpoch lock), (li_EndTime lock); try discriminate.
  destruct (li_LockedStake lock), (li_Duration lock); try discriminate;
    reflexivity.
Qed.

Lemma DelegationLock_panic_is_empty_lock_witness :
  fst (DelegationLock 1 2
         (Returns (Ok {| li_LockedStake := None; li_FromEpoch := Some 10;
                         li_EndTime := Some 20; li_Duration := Some 5 |})))
  = (Some empty_lock, None).
Proof.
  apply (DelegationLock_panic_is_empty_lock 1 2).
  right. eexists. split; [reflexivity |]. split; reflexivity.
Defined.

(** X9. [DelegationTokenizerUnlocked] fails closed: it reports the
    delegation unlocked only when the tokenizer contract was instantiated
    and answered true without error; with any error the answer is false. *)
Theorem DelegationTokenizerUnlocked_fails_closed
    (addr : Address) (valID : Z) (contract : result (result bool)) :
  (fst (fst (DelegationTokenizerUnlocked addr valID contract)) = true
   <-> contract = Ok (Ok true))
  /\ (snd (fst (DelegationTokenizerUnlocked addr valID contract)) <> None ->
      fst (fst (DelegationTokenizerUnlocked addr valID contract)) = false).
Proof.
  unfold DelegationTokenizerUnlocked.
  destruct contract as [[lock | err] | err]; simpl.
  - split; [split; congruence | intros H; contradiction].
  - split; [split; discriminate | reflexivity].
  - split; [split; discriminate | reflexivity].
Qed.

End LocksSpec.

(** ** Loading the configuration *)

Module DefiConfigSpec.
Import DefiSettings DefiConfig.

Lemma store_comm (r1 r2 : item) (v1 v2 : Z) (ds : DefiSettings_t) :
  r1 <> r2 -> store r1 v1 (store r2 v2 ds) = store r2 v2 (store r1 v1 ds).
Proof.
  intros Hne. destruct r1, r2; try contradiction; reflexivity.
Qed.

Lemma load_store (r1 r2 : item) (v : Z) (ds : DefiSettings_t) :
  load r1 (store r2 v ds) = match r1, r2 with
                            | MintFee4, MintFee4
                            | MinCollateralRatio4, MinCollateralRatio4
                            | RewardCollateralRatio4, RewardCollateralRatio4 => v
                            | _, _ => load r1 ds
                            end.
Proof. destruct r1, r2; reflexivity. Qed.

Lemma load_store_same (r : item) (v : Z) (ds : DefiSettings_t) :
  load r (store r v ds) = v.
Proof. destruct r; reflexivity. Qed.

Lemma load_store_other (r1 r2 : item) (v : Z) (ds : DefiSettings_t) :
  r1 <> r2 -> load r1 (store r2 v ds) = load r1 ds.
Proof. intros Hne. destruct r1, r2; try contradiction; reflexivity. Qed.

Lemma loaded_Ok (fn : option Z * option error) (v : Z) :
  loaded fn = Some v <-> pullDefiConfigValue fn = Ok v.
Proof.
  unfold loaded. destruct (pullDefiConfigValue fn); split; congruence.
Qed.

Lemma loaded_iff (fn : option Z * option error) (v : Z) :
  loaded fn = Some v <-> fn = (Some v, None).
Proof.
  unfold loaded, pullDefiConfigValue.
  destruct fn as [[val |] [err |]]; split; congruence.
Qed.

Lemma pull_app (l1 l2 : tConfigItemsLoaders) :
  forall ds,
    pullSetOfDefiConfigValues (l1 ++ l2) ds
    = match pullSetOfDefiConfigValues l1 ds with
      | (ds1, None) => pullSetOfDefiConfigValues l2 ds1
      | (ds1, Some err) => (ds1, Some err)
      end.
Proof.
  induction l1 as [| [ref fn] l1 IH]; intros ds; simpl.
  - reflexivity.
  - destruct (pullDefiConfigValue fn); [apply IH | reflexivity].
Qed.

(** What a run of loaders that all succeed leaves in the settings. *)
Lemma pull_all_loaded (loaders : tConfigItemsLoaders) :
  forall ds,
    NoDup (map fst loaders) ->
    (forall ref fn, In (ref, fn) loaders -> loaded fn <> None) ->
    exists ds',
      pullSetOfDefiConfigValues loaders ds = (ds', None)
      /\ (forall ref fn, In (ref, fn) loaders -> loaded fn = Some (load ref ds'))
      /\ (forall ref, ~ In ref (map fst loaders) -> load ref ds' = load ref ds)
      /\ ds_Decimals ds' = ds_Decimals ds
      /\ (FMintContract ds', FMintAddressProvider ds', FMintTokenRegistry ds',
          FMintRewardDistribution ds', FMintCollateralPool ds',
          FMintDebtPool ds', PriceOracleAggregate ds')
         = (FMintContract ds, FMintAddressProvider ds, FMintTokenRegistry ds,
            FMintRewardDistribution ds, FMintCollateralPool ds,
            FMintDebtPool ds, PriceOracleAggregate ds).
Proof.
  induction loaders as [| [ref fn] loaders IH]; intros ds Hnd Hall.
  - exists ds. simpl. repeat split; auto. intros ref fn [].
  - simpl in Hnd. inversion Hnd as [| ? ? Hnotin Hnd']; subst.
    assert (Hfn : loaded fn <> None) by (apply (Hall ref); left; reflexivity).
    unfold loaded in Hfn. simpl.
    destruct (pullDefiConfigValue fn) as [v | e] eqn:Hpull; [| congruence].
    destruct (IH (store ref v ds) Hnd') as [ds' [Hrun [Hin [Hout [Hdec Haddr]]]]].
    { intros r f Hrf. apply (Hall r f). right. exact Hrf. }
    exists ds'. split; [exact Hrun |]. repeat split.
    + intros r f [[= <- <-] | Hrf].
      * rewrite (Hout ref Hnotin), load_store_same.
        apply loaded_Ok. exact Hpull.
      * apply Hin. exact Hrf.
    + intros r Hr. simpl in Hr.
      rewrite Hout by tauto.
      apply load_store_other. intros ->. tauto.
    + exact Hdec.
    + exact Haddr.
Qed.

Lemma settings_eq (a b : DefiSettings_t) :
  (forall ref, load ref a = load ref b) ->
  ds_Decimals a = ds_Decimals b ->
  (FMintContract a, FMintAddressProvider a, FMintTokenRegistry a,
   FMintRewardDistribution a, FMintCollateralPool a,
   FMintDebtPool a, PriceOracleAggregate a)
  = (FMintContract b, FMintAddressProvider b, FMintTokenRegistry b,
     FMintRewardDistribution b, FMintCollateralPool b,
     FMintDebtPool b, PriceOracleAggregate b) ->
  a = b.
Proof.
  intros Hload Hdec Haddr.
  pose proof (Hload MintFee4) as H1.
  pose proof (Hload MinCollateralRatio4) as H2.
  pose proof (Hload RewardCollateralRatio4) as H3.
  destruct a, b. simpl in *.
  injection Haddr as -> -> -> -> -> -> ->. subst. reflexivity.
Qed.

(** X10. When every loader succeeds, [pullSetOfDefiConfigValues] returns
    no error and leaves in each field the value of its loader, the other
    fields as they were; so the settings it leaves do not depend on the
    order in which the map of loaders is visited. *)
Theorem pullSetOfDefiConfigValues_any_order
    (loaders loaders' : tConfigItemsLoaders) (ds : DefiSettings_t) :
  NoDup (map fst loaders) ->
  (forall ref fn, In (ref, fn) loaders -> loaded fn <> None) ->
  Permutation loaders loaders' ->
  exists ds',
    pullSetOfDefiConfigValues loaders ds = (ds', None)
    /\ pullSetOfDefiConfigValues loaders' ds = (ds', None)
    /\ (forall ref fn, In (ref, fn) loaders -> loaded fn = Some (load ref ds'))
    /\ (forall ref, ~ In ref (map fst loaders) -> load ref ds' = load ref ds).
Proof.
  intros Hnd Hall Hperm.
  assert (Hnd' : NoDup (map fst loaders')).
  { apply (Permutation_NoDup
             (Permutation_map fst Hperm) Hnd). }
  assert (Hall' : forall ref fn, In (ref, fn) loaders' -> loaded fn <> None).
  { intros ref fn Hin. apply (Hall ref fn).
    apply (Permutation_in _ (Permutation_sym Hperm)).
    exact Hin. }
  destruct (pull_all_loaded loaders ds Hnd Hall)
    as [ds1 [Hrun1 [Hin1 [Hout1 [Hdec1 Haddr1]]]]].
  destruct (pull_all_loaded loaders' ds Hnd' Hall')
    as [ds2 [Hrun2 [Hin2 [Hout2 [Hdec2 Haddr2]]]]].
  exists ds1. split; [exact Hrun1 | split; [| split; assumption]].
  rewrite Hrun2. f_equal. apply settings_eq.
  - intros ref.
    destruct (in_dec (fun a b : item => ltac:(decide equality) : {a = b} + {a <> b})
                ref (map fst loaders)) as [Hin | Hnotin].
    + apply in_map_iff in Hin. destruct Hin as [[r fn] [Hr Hin]].
      simpl in Hr. subst r.
      pose proof (Hin1 ref fn Hin) as E1.
      pose proof (Hin2 ref fn (Permutation_in _ Hperm Hin)) as E2.
      congruence.
    + rewrite Hout1 by exact Hnotin.
      apply Hout2. intros Hin. apply Hnotin.
      apply (Permutation_in _
               (Permutation_sym
                  (Permutation_map fst Hperm))).
      exact Hin.
  - congruence.
  - congruence.
Qed.

Lemma NoDup_app_disjoint {A : Type} (l1 l2 : list A) :
  NoDup (l1 ++ l2) -> forall a, In a l1 -> ~ In a l2.
Proof.
  induction l1 as [| x l1 IH]; simpl; intros Hnd a Hin Hin2.
  - exact Hin.
  - inversion Hnd as [| ? ? Hx Hnd']; subst.
    destruct Hin as [-> | Hin].
    + apply Hx. apply in_or_app. right. exact Hin2.
    + apply (IH Hnd' a Hin Hin2).
Qed.

Lemma pullSetOfDefiConfigValues_any_order_witness :
  exists ds',
    pullSetOfDefiConfigValues
      [(MintFee4, (Some 25, None)); (MinCollateralRatio4, (Some 30000, None))]
      sample_settings = (ds', None)
    /\ pullSetOfDefiConfigValues
         [(MinCollateralRatio4, (Some 30000, None)); (MintFee4, (Some 25, None))]
         sample_settings = (ds', None).
Proof.
  destruct (pullSetOfDefiConfigValues_any_order
              [(MintFee4, (Some 25, None));
               (MinCollateralRatio4, (Some 30000, None))]
              [(MinCollateralRatio4, (Some 30000, None));
               (MintFee4, (Some 25, None))]
              sample_settings)
    as [ds' [H1 [H2 _]]].
  - simpl. repeat constructor; simpl; intuition discriminate.
  - intros ref fn [[= <- <-] | [[= <- <-] | []]]; discriminate.
  - apply perm_swap.
  - exists ds'. split; assumption.
Defined.

(** X11. [pullSetOfDefiConfigValues] stops at the first loader that
    fails: it returns that loader's error, has stored the values of the
    loaders visited before and the zero value in the field of the failing
    one, and does not touch the fields of the loaders after it. *)
Theorem pullSetOfDefiConfigValues_stops_at_first_error
    (before after : tConfigItemsLoaders) (ref : item)
    (fn : option Z * option error) (err : error) (ds : DefiSettings_t) :
  NoDup (map fst (before ++ (ref, fn) :: after)) ->
  (forall r f, In (r, f) before -> loaded f <> None) ->
  pullDefiConfigValue fn = Err err ->
  exists ds',
    pullSetOfDefiConfigValues (before ++ (ref, fn) :: after) ds
    = (ds', Some err)
    /\ (forall r f, In (r, f) before -> loaded f = Some (load r ds'))
    /\ load ref ds' = 0
    /\ (forall r f, In (r, f) after -> load r ds' = load r ds).
Proof.
  intros Hnd Hall Hfail.
  rewrite map_app in Hnd. simpl in Hnd.
  pose proof (NoDup_remove_1 _ _ _ Hnd) as Hnd1.
  pose proof (NoDup_remove_2 _ _ _ Hnd) as Hnotin.
  assert (Hndb : NoDup (map fst before)).
  { apply NoDup_app_remove_r in Hnd1. exact Hnd1. }
  destruct (pull_all_loaded before ds Hndb Hall)
    as [ds1 [Hrun [Hin [Hout _]]]].
  exists (store ref 0 ds1).
  rewrite pull_app, Hrun. simpl. rewrite Hfail.
  split; [reflexivity |]. repeat split.
  - intros r f Hrf.
    rewrite load_store_other; [apply Hin; exact Hrf |].
    intros ->. apply Hnotin. apply in_or_app. left.
    apply in_map_iff. exists (ref, f). split; [reflexivity | exact Hrf].
  - apply load_store_same.
  - intros r f Hrf.
    assert (Hr : In r (map fst after)).
    { apply in_map_iff. exists (r, f). split; [reflexivity | exact Hrf]. }
    rewrite load_store_other.
    + apply Hout. intros Hrb.
      apply (NoDup_app_disjoint _ _ Hnd1 r Hrb Hr).
    + intros ->. apply Hnotin. apply in_or_app. right. exact Hr.
Qed.

Lemma pullSetOfDefiConfigValues_stops_at_first_error_witness :
  exists ds',
    pullSetOfDefiConfigValues
      ([(MintFee4, (Some 25, None))]
         ++ (MinCollateralRatio4, (None, Some "reverted"))
         :: [(RewardCollateralRatio4, (Some 50000, None))])
      sample_settings = (ds', Some "reverted")
    /\ load MinCollateralRatio4 ds' = 0.
Proof.
  destruct (pullSetOfDefiConfigValues_stops_at_first_error
              [(MintFee4, (Some 25, None))]
              [(RewardCollateralRatio4, (Some 50000, None))]
              MinCollateralRatio4 (None, Some "reverted") "reverted"
              sample_settings)
    as [ds' [Hrun [_ [Hzero _]]]].
  - simpl. repeat constructor; simpl; intuition discriminate.
  - intros r f [[= <- <-] | []]. discriminate.
  - reflexivity.
  - exists ds'. split; assumption.
Defined.

Lemma pull_error (loaders : tConfigItemsLoaders) :
  forall ds,
    (exists ref fn, In (ref, fn) loaders /\ loaded fn = None) ->
    snd (pullSetOfDefiConfigValues loaders ds) <> None.
Proof.
  induction loaders as [| [ref fn] loaders IH]; intros ds [r [f [Hin Hf]]].
  - destruct Hin.
  - simpl. unfold loaded in Hf.
    destruct (pullDefiConfigValue fn) as [v | e] eqn:Hpull; [| discriminate].
    apply IH. destruct Hin as [[= <- <-] | Hin].
    + rewrite Hpull in Hf. discriminate.
    + exists r, f. split; assumption.
Qed.

Lemma items_complete (order : list item) :
  Permutation order items -> NoDup order /\ forall ref, In ref order.
Proof.
  intros Hperm. split.
  - apply (Permutation_NoDup (Permutation_sym Hperm)).
    unfold items. repeat constructor; simpl; intuition discriminate.
  - intros ref. apply (Permutation_in _ (Permutation_sym Hperm)).
    destruct ref; simpl; auto.
Qed.

Lemma map_fst_loaders (contract : DefiFMintMinter) (order : list item) :
  map fst (map (fun ref => (ref, loader contract ref)) order) = order.
Proof.
  rewrite map_map. simpl. apply map_id.
Qed.

Lemma in_loaders (contract : DefiFMintMinter) (order : list item)
    (ref : item) (fn : option Z * option error) :
  In (ref, fn) (map (fun r => (r, loader contract r)) order)
  <-> In ref order /\ fn = loader contract ref.
Proof.
  rewrite in_map_iff. split.
  - intros [r [[= <- <-] Hin]]. auto.
  - intros [Hin ->]. exists ref. auto.
Qed.

(** X12. When the contract is reached and its four loaders return a
    value, [DefiConfiguration] returns, whatever the order in which the
    map of loaders is visited, the settings made of the configured
    addresses, the three loaded values and the decimals counted from the
    digits correction, with no error and nothing logged. *)
Theorem DefiConfiguration_settings
    (cfg : FMintConfig) (order : list item) (contract : DefiFMintMinter)
    (fee ratio reward correction : Z) :
  Permutation order items ->
  fMintMinterContract cfg = Ok contract ->
  GetFMintFee4dec contract = (Some fee, None) ->
  GetCollateralLowestDebtRatio4dec contract = (Some ratio, None) ->
  GetRewardEligibilityRatio4dec contract = (Some reward, None) ->
  FMintFeeDigitsCorrection contract = (Some correction, None) ->
  DefiConfiguration cfg order
  = ((Some {| FMintContract := fMintAddressMinter cfg;
              FMintAddressProvider := addressProvider cfg;
              FMintTokenRegistry := fMintAddressTokenRegistry cfg;
              FMintRewardDistribution := fMintAddressRewardDistribution cfg;
              FMintCollateralPool := fMintCollateralPool cfg;
              FMintDebtPool := fMintDebtPool cfg;
              PriceOracleAggregate := fMintAddressPriceOracleProxy cfg;
              ds_MintFee4 := fee;
              ds_MinCollateralRatio4 := ratio;
              ds_RewardCollateralRatio4 := reward;
              ds_Decimals := decimals (Uint64 correction) |},
      None),
     []).
Proof.
  intros Hperm Hcon Hfee Hratio Hreward Hcorr.
  destruct (items_complete order Hperm) as [Hnd Hall].
  unfold DefiConfiguration. rewrite Hcon.
  match goal with
  | |- context [pullSetOfDefiConfigValues ?l ?d] =>
      destruct (pull_all_loaded l d) as [ds' [Hrun [Hin [_ [Hdec Haddr]]]]]
  end.
  { rewrite map_fst_loaders. exact Hnd. }
  { intros ref fn Hrf. apply in_loaders in Hrf. destruct Hrf as [_ ->].
    unfold loaded, pullDefiConfigValue.
    destruct ref; simpl; rewrite ?Hfee, ?Hratio, ?Hreward; discriminate. }
  rewrite Hrun, Hcorr. simpl in Hdec, Haddr.
  assert (Hds : ds' = {| FMintContract := fMintAddressMinter cfg;
                         FMintAddressProvider := addressProvider cfg;
                         FMintTokenRegistry := fMintAddressTokenRegistry cfg;
                         FMintRewardDistribution :=
                           fMintAddressRewardDistribution cfg;
                         FMintCollateralPool := fMintCollateralPool cfg;
                         FMintDebtPool := fMintDebtPool cfg;
                         PriceOracleAggregate :=
                           fMintAddressPriceOracleProxy cfg;
                         ds_MintFee4 := fee;
                         ds_MinCollateralRatio4 := ratio;
                         ds_RewardCollateralRatio4 := reward;
                         ds_Decimals := 0 |}).
  { apply settings_eq; [| exact Hdec | exact Haddr].
    intros ref.
    assert (Hl : loaded (loader contract ref) = Some (load ref ds')).
    { apply (Hin ref). apply in_loaders. auto. }
    unfold loaded, pullDefiConfigValue in Hl.
    destruct ref; simpl in Hl |- *;
      rewrite ?Hfee, ?Hratio, ?Hreward in Hl; congruence. }
  subst ds'. reflexivity.
Qed.

Lemma DefiConfiguration_settings_witness :
  fst (DefiConfiguration sample_config
         [RewardCollateralRatio4; MintFee4; MinCollateralRatio4])
  = (Some {| FMintContract := 2; FMintAddressProvider := 1;
             FMintTokenRegistry := 3; FMintRewardDistribution := 4;
             FMintCollateralPool := 5; FMintDebtPool := 6;
             PriceOracleAggregate := 7;
             ds_MintFee4 := 25; ds_MinCollateralRatio4 := 30000;
             ds_RewardCollateralRatio4 := 50000; ds_Decimals := 4 |},
     None).
Proof.
  rewrite (DefiConfiguration_settings sample_config
             [RewardCollateralRatio4; MintFee4; MinCollateralRatio4]
             sample_minter 25 30000 50000 10000).
  - reflexivity.
  - apply Permutation_sym.
    apply (perm_trans (perm_skip MintFee4
                         (perm_swap RewardCollateralRatio4
                            MinCollateralRatio4 []))).
    apply perm_swap.
  - reflexivity.
  - reflexivity.
  - reflexivity.
  - reflexivity.
  - reflexivity.
Defined.

(** X13. [DefiConfiguration] returns exactly one of the settings and an
    error; it returns the settings exactly when the contract is reached
    and each of its four loaders returns a value without error. *)
Theorem DefiConfiguration_settings_or_error
    (cfg : FMintConfig) (order : list item) :
  Permutation order items ->
  (fst (fst (DefiConfiguration cfg order)) = None
   <-> snd (fst (DefiConfiguration cfg order)) <> None)
  /\ (fst (fst (DefiConfiguration cfg order)) <> None
      <-> exists contract,
            fMintMinterContract cfg = Ok contract
            /\ (forall ref, loaded (loader contract ref) <> None)
            /\ loaded (FMintFeeDigitsCorrection contract) <> None).
Proof.
  intros Hperm.
  destruct (items_complete order Hperm) as [Hnd Hall].
  unfold DefiConfiguration.
  destruct (fMintMinterContract cfg) as [contract | e].
  2: { simpl. split; split;
         first [ solve [intros; congruence]
               | solve [intros _; discriminate]
               | intros [c [H _]]; discriminate ]. }
  assert (Hdec : (forall ref, loaded (loader contract ref) <> None)
                 \/ exists ref, loaded (loader contract ref) = None).
  { destruct (loaded (loader contract MintFee4)) eqn:H1;
      [| right; exists MintFee4; exact H1].
    destruct (loaded (loader contract MinCollateralRatio4)) eqn:H2;
      [| right; exists MinCollateralRatio4; exact H2].
    destruct (loaded (loader contract RewardCollateralRatio4)) eqn:H3;
      [| right; exists RewardCollateralRatio4; exact H3].
    left. intros []; congruence. }
  destruct Hdec as [Hloaded | [ref Hfail]].
  - match goal with
    | |- context [pullSetOfDefiConfigValues ?l ?d] =>
        destruct (pull_all_loaded l d) as [ds' [Hrun _]]
    end.
    { rewrite map_fst_loaders. exact Hnd. }
    { intros r fn Hrf. apply in_loaders in Hrf. destruct Hrf as [_ ->].
      apply Hloaded. }
    rewrite Hrun.
    unfold pullDefiDecimalCorrection, loaded in *.
    destruct (pullDefiConfigValue (FMintFeeDigitsCorrection contract))
      as [v | e] eqn:Hcorr; simpl.
    + split; split;
        first [ solve [intros; congruence]
              | solve [intros _; discriminate]
              | intros _; exists contract;
                split; [reflexivity |];
                split; [exact Hloaded | rewrite Hcorr; discriminate] ].
    + split; split;
        first [ solve [intros; congruence]
              | solve [intros _; discriminate]
              | intros [c [[= <-] [_ H]]]; rewrite Hcorr in H; congruence ].
  - match goal with
    | |- context [pullSetOfDefiConfigValues ?l ?d] =>
        pose proof (pull_error l d) as Herr;
        destruct (pullSetOfDefiConfigValues l d) as [ds' [e |]]
    end.
    + simpl. split; split;
        first [ solve [intros; congruence]
              | solve [intros _; discriminate]
              | intros [c [[= <-] [H _]]]; destruct (H ref Hfail) ].
    + exfalso. apply Herr; [| reflexivity].
      exists ref, (loader contract ref). split; [| exact Hfail].
      apply in_loaders. auto.
Qed.

Lemma DefiConfiguration_settings_or_error_witness :
  snd (fst (DefiConfiguration sample_config items)) = None.
Proof.
  destruct (DefiConfiguration_settings_or_error sample_config items
              (Permutation_refl items)) as [Hone _].
  destruct (snd (fst (DefiConfiguration sample_config items))) eqn:He;
    [| reflexivity].
  assert (Hnone : fst (fst (DefiConfiguration sample_config items)) = None)
    by (apply Hone; discriminate).
  discriminate Hnone.
Defined.

End DefiConfigSpec.

(** ** The decimals correction, further *)

Module DecimalsSpec.
Import DefiSettings DefiSettingsSpec.

Lemma div10_count_unique (v n m : Z) :
  is_div10_count v n -> is_div10_count v m -> n = m.
Proof.
  intros [Hn [Hdn Hbn]] [Hm [Hdm Hbm]].
  destruct (Z.lt_trichotomy n m) as [Hlt | [Heq | Hgt]].
  - specialize (Hbm n). lia.
  - exact Heq.
  - specialize (Hbn m). lia.
Qed.

Lemma div10_count_mono (v w n m : Z) :
  0 <= v <= w -> is_div10_count v n -> is_div10_count w m -> n <= m.
Proof.
  intros Hvw [Hn [Hdn Hbn]] [Hm [Hdm Hbm]].
  destruct (Z_le_gt_dec n m) as [Hle | Hgt]; [exact Hle |].
  specialize (Hbn m ltac:(lia)).
  assert (v / 10 ^ m <= w / 10 ^ m)
    by (apply Z.div_le_mono; [apply pow10_pos |]; lia).
  lia.
Qed.

Lemma decimals_range (v : Z) :
  0 <= v < 2 ^ 64 -> 0 <= decimals v <= 19.
Proof.
  intros Hv.
  pose proof (decimals_is_div10_count v Hv) as [Hn [_ Hb]].
  split; [exact Hn |].
  destruct (Z_le_gt_dec (decimals v) 19) as [Hle | Hgt]; [exact Hle |].
  specialize (Hb 19 ltac:(lia)).
  assert (v / 10 ^ 19 < 2).
  { apply Z.div_lt_upper_bound; [apply pow10_pos; lia |].
    change (2 ^ 64) with 18446744073709551616 in Hv.
    change (10 ^ 19) with 10000000000000000000. lia. }
  lia.
Qed.

(** X14. The decimals correction is monotone in the value and never
    exceeds 19: for unsigned 64-bit values [v <= w],
    [0 <= decimals v <= decimals w <= 19]; so the [int32] counter never
    wraps. *)
Theorem decimals_monotone_bounded (v w : Z) :
  0 <= v <= w -> w < 2 ^ 64 ->
  0 <= decimals v <= decimals w /\ decimals w <= 19.
Proof.
  intros Hvw Hw.
  pose proof (decimals_is_div10_count v ltac:(lia)) as Hv.
  pose proof (decimals_is_div10_count w ltac:(lia)) as Hcw.
  split; [split |].
  - destruct Hv as [H _]. exact H.
  - apply (div10_count_mono v w); assumption.
  - apply (decimals_range w). lia.
Qed.

Lemma decimals_monotone_bounded_witness :
  0 <= decimals 999 <= decimals 10000 /\ decimals 10000 <= 19.
Proof.
  apply (decimals_monotone_bounded 999 10000); simpl; lia.
Defined.

(** X15. One more decimal digit, one more decimal: for a value
    [v >= 1] whose tenfold still fits 64 bits,
    [decimals (10 * v) = decimals v + 1]; in particular the correction
    [10^k] of a contract with k decimals gives k. *)
Theorem decimals_times_ten (v : Z) :
  1 <= v -> 10 * v < 2 ^ 64 ->
  decimals (10 * v) = decimals v + 1.
Proof.
  intros Hv Hfit.
  pose proof (decimals_is_div10_count v ltac:(lia)) as Hcv.
  pose proof (decimals_is_div10_count (10 * v) ltac:(lia)) as Hcw.
  apply (div10_count_unique (10 * v)); [exact Hcw |].
  destruct Hcv as [Hn [Hd Hb]].
  assert (Hten : 10 * v / 10 = v)
    by (rewrite Z.mul_comm; apply Z.div_mul; lia).
  split; [lia | split].
  - rewrite div_pow10_succ, Hten by lia. exact Hd.
  - intros m Hm.
    destruct (Z.eq_dec m 0) as [-> | Hm0].
    + rewrite Z.pow_0_r, Z.div_1_r. lia.
    + replace m with ((m - 1) + 1) by lia.
      rewrite div_pow10_succ, Hten by lia.
      apply Hb. lia.
Qed.

Lemma decimals_times_ten_witness :
  decimals (10 * 1000) = decimals 1000 + 1.
Proof.
  apply decimals_times_ten; simpl; lia.
Defined.

Lemma Uint64_range (x : Z) : 0 <= Uint64 x < 2 ^ 64.
Proof.
  unfold Uint64. apply Z.mod_pos_bound. reflexivity.
Qed.

(** X16. [pullDefiDecimalCorrection] returns an error exactly when the
    loader of the digits correction fails or returns no value, and then
    zero decimals; otherwise, whatever number the contract returns, the
    decimals lie between 0 and 19. *)
Theorem pullDefiDecimalCorrection_range (cf : option Z * option error) :
  (snd (fst (pullDefiDecimalCorrection cf)) = None
   <-> exists val, cf = (Some val, None))
  /\ (snd (fst (pullDefiDecimalCorrection cf)) <> None ->
      fst (fst (pullDefiDecimalCorrection cf)) = 0)
  /\ 0 <= fst (fst (pullDefiDecimalCorrection cf)) <= 19.
Proof.
  unfold pullDefiDecimalCorrection, pullDefiConfigValue.
  destruct cf as [[val |] [err |]]; cbn [fst snd bind ret log].
  all: repeat split;
    try solve [ intros; congruence
              | intros [v H]; discriminate
              | intros; eexists; reflexivity
              | lia ].
  all: pose proof (Uint64_range val) as Hr;
    pose proof (decimals_range (Uint64 val) Hr) as Hd;
    unfold decimals in Hd; lia.
Qed.

End DecimalsSpec.

(** ** The block observer: accounts of an execution *)

Module ObserverAccountsSpec.
Import Observer ObserverAccounts ObserverSpec.

Lemma drops_app (tr1 tr2 : list effect) :
  drops (tr1 ++ tr2) = drops tr1 ++ drops tr2.
Proof. apply flat_map_app. Qed.

Create Rewrite HintDb accounts.
#[local] Hint Rewrite wg_dones_app closes_received_app unsubscribes_app
  open_times_app logged_app drops_app app_nil_r length_app : accounts.

(** Induction along the executions of the worker. *)
Lemma executions_ind (t0 : Z) (P : list event -> state -> Prop) :
  P [] (entry t0) ->
  (forall evs s ev s',
     observeBlocks t0 evs = Some s -> P evs s ->
     step s ev = Some s' -> P (evs ++ [ev]) s') ->
  forall evs s, observeBlocks t0 evs = Some s -> P evs s.
Proof.
  intros Hentry Hstep.
  induction evs as [| ev evs IH] using rev_ind; intros s Hrun.
  - injection Hrun as <-. exact Hentry.
  - unfold observeBlocks in Hrun. rewrite run_app in Hrun.
    destruct (run (entry t0) evs) as [s1 |] eqn:Hrun1; [| discriminate].
    cbn [run] in Hrun.
    destruct (step s1 ev) as [s2 |] eqn:Hs; [| discriminate].
    injection Hrun as <-.
    apply (Hstep evs s1 ev s2); auto.
Qed.

(** X17. While the call of [EthSubscribe] is pending the worker does
    nothing, whatever else happens: as long as the call has not returned
    the worker stays inside [blockSubscription] and its trace does not
    grow, also after the shutdown signal has fired. *)
Theorem pending_open_blocks_the_worker
    (s s' : state) (evs : list event) :
  at_ s = InSubscribe ->
  existsb is_open_return evs = false ->
  run s evs = Some s' ->
  at_ s' = InSubscribe /\ trace s' = trace s /\ sub s' = sub s.
Proof.
  revert s. induction evs as [| ev evs IH]; intros s Hat Hno Hrun.
  - injection Hrun as <-. auto.
  - cbn [run] in Hrun. simpl in Hno. apply orb_false_iff in Hno.
    destruct Hno as [Hev Hno].
    destruct (step s ev) as [s1 |] eqn:Hstep; [| discriminate].
    assert (H1 : at_ s1 = InSubscribe /\ trace s1 = trace s /\ sub s1 = sub s).
    { clear IH Hrun. step_cases Hstep; try discriminate; auto. }
    destruct H1 as [Hat1 [Htr1 Hsub1]].
    destruct (IH s1 Hat1 Hno Hrun) as [Hat' [Htr' Hsub']].
    repeat split; congruence.
Qed.

Lemma pending_open_blocks_the_worker_witness :
  exists s',
    run (entry 0) [Shutdown; Elapse 3600000000000] = Some s'
    /\ at_ s' = InSubscribe /\ trace s' = [CallEthSubscribe 0].
Proof.
  eexists. split; [vm_compute; reflexivity |].
  destruct (pending_open_blocks_the_worker (entry 0) _
              [Shutdown; Elapse 3600000000000] eq_refl eq_refl
              ltac:(vm_compute; reflexivity))
    as [Hat [Htr _]].
  split; assumption.
Defined.

Lemma step_Ends_with_cleanup (s s' : state) (ev : event) :
  Inv s -> Ends_with_cleanup s -> step s ev = Some s' ->
  Ends_with_cleanup s'.
Proof.
  intros HI Hends Hstep.
  pose proof (inv_running s HI) as Hrunning.
  unfold Ends_with_cleanup in *.
  step_cases Hstep; try discriminate; try exact Hends.
  all: intros _;
    destruct Hrunning as [Hwg [Hun Hcl]]; [discriminate |];
    match type of Hwg with
    | wg_dones ?tr = _ => exists tr
    end;
    rewrite <- ?app_assoc; simpl; auto.
Qed.

(** X18. When [observeBlocks] has returned, the last things it did are,
    in this order: the receipt of the shutdown signal, [Unsubscribe] on the
    handle it held (if any), the notice, and [wg.Done]; nothing before
    them was an [Unsubscribe] or a [wg.Done]. So whoever waits for the join
    token finds the subscription already torn down. *)
Theorem returns_after_cleanup_in_order
    (t0 : Z) (evs : list event) (s : state) :
  observeBlocks t0 evs = Some s ->
  at_ s = Returned ->
  exists pre,
    trace s
    = pre ++ [Recv SigClose]
        ++ match sub s with Some h => [Unsubscribe h] | None => [] end
        ++ [Log observer_done; WgDone]
    /\ wg_dones pre = 0%nat /\ unsubscribes pre = []
    /\ closes_received pre = 0%nat.
Proof.
  intros Hrun.
  change (Ends_with_cleanup s).
  revert evs s Hrun.
  apply (executions_ind t0 (fun _ s => Ends_with_cleanup s)).
  - intros H. discriminate H.
  - intros evs s ev s' Hrun Hends Hstep.
    apply (step_Ends_with_cleanup s s' ev); auto.
    apply (observeBlocks_Inv t0 evs s Hrun).
Qed.

Lemma returns_after_cleanup_in_order_witness :
  exists s pre,
    observeBlocks 0 [SubscribeReturns None; Shutdown; Select CaseSigClose]
    = Some s
    /\ trace s = pre ++ [Recv SigClose; Unsubscribe 0%nat;
                         Log observer_done; WgDone].
Proof.
  destruct (returns_after_cleanup_in_order 0
              [SubscribeReturns None; Shutdown; Select CaseSigClose]
              _ ltac:(vm_compute; reflexivity) eq_refl) as [pre [Htr _]].
  eexists. exists pre. split; [vm_compute; reflexivity | exact Htr].
Defined.

Lemma successes_snoc (evs : list event) (ev : event) :
  successes (evs ++ [ev])
  = (successes evs
     + match ev with SubscribeReturns None => 1 | _ => 0 end)%nat.
Proof.
  unfold successes. rewrite open_results_app, filter_app, length_app.
  f_equal. destruct ev as [d | | [e |] | e | c]; reflexivity.
Qed.

Lemma failures_snoc (evs : list event) (ev : event) :
  failures (evs ++ [ev])
  = failures evs
      ++ match ev with SubscribeReturns (Some e) => [e] | _ => [] end.
Proof.
  unfold failures. rewrite open_results_app, flat_map_app.
  f_equal. destruct ev as [d | | [e |] | e | c]; reflexivity.
Qed.

(** X19. No subscription is lost: in every execution the number of opens
    that returned a subscription equals the number of subscriptions
    dropped after the receipt of their failure, plus the number of
    [Unsubscribe] calls, plus one if the running worker holds a handle. *)
Theorem every_subscription_accounted_for
    (t0 : Z) (evs : list event) (s : state) :
  observeBlocks t0 evs = Some s ->
  successes evs
  = (List.length (drops (trace s))
     + List.length (unsubscribes (trace s))
     + List.length (held s))%nat.
Proof.
  revert evs s.
  apply (executions_ind t0
           (fun evs s =>
              successes evs
              = (List.length (drops (trace s))
                 + List.length (unsubscribes (trace s))
                 + List.length (held s))%nat)).
  - reflexivity.
  - intros evs s ev s' Hrun IH Hstep.
    pose proof (observeBlocks_Inv t0 evs s Hrun) as HI.
    pose proof (inv_sub s HI) as Hsub.
    rewrite successes_snoc, IH. clear IH Hrun HI.
    unfold held in *.
    step_cases Hstep; subst; simpl; autorewrite with accounts; simpl;
      try lia; try discriminate; try contradiction.
Qed.

Lemma every_subscription_accounted_for_witness :
  exists s,
    observeBlocks 0
      [SubscribeReturns None; StreamFails "eof"; Select CaseErr;
       Elapse 30000000000; Select CaseTimer; SubscribeReturns None;
       Shutdown; Select CaseSigClose] = Some s
    /\ (List.length (drops (trace s))
        + List.length (unsubscribes (trace s))
        + List.length (held s))%nat = 2%nat.
Proof.
  eexists. split; [vm_compute; reflexivity |].
  rewrite <- (every_subscription_accounted_for 0
                [SubscribeReturns None; StreamFails "eof"; Select CaseErr;
                 Elapse 30000000000; Select CaseTimer; SubscribeReturns None;
                 Shutdown; Select CaseSigClose] _
                ltac:(vm_compute; reflexivity)).
  reflexivity.
Defined.

Lemma at_level_app (l : level) (a b : list LogEntry) :
  at_level l (a ++ b) = at_level l a ++ at_level l b.
Proof. apply filter_app. Qed.

(** X20. The log tells what happened: in every execution the critical
    entries are exactly the errors of the failed opens, in their order;
    there is one error-level entry for each stream failure received; and
    the notice is written exactly as often as [wg.Done] is called. *)
Theorem log_accounts_for_failures
    (t0 : Z) (evs : list event) (s : state) :
  observeBlocks t0 evs = Some s ->
  at_level Critical (logged (trace s)) = map can_not_observe (failures evs)
  /\ List.length (at_level Error (logged (trace s)))
     = List.length (drops (trace s))
  /\ List.length (at_level Notice (logged (trace s))) = wg_dones (trace s).
Proof.
  revert evs s.
  apply (executions_ind t0
           (fun evs s =>
              at_level Critical (logged (trace s))
              = map can_not_observe (failures evs)
              /\ List.length (at_level Error (logged (trace s)))
                 = List.length (drops (trace s))
              /\ List.length (at_level Notice (logged (trace s)))
                 = wg_dones (trace s))).
  - repeat split.
  - intros evs s ev s' _ [Hcrit [Herr Hnote]] Hstep.
    rewrite failures_snoc, map_app.
    step_cases Hstep; subst; simpl in *;
      autorewrite with accounts; rewrite ?at_level_app;
      autorewrite with accounts; simpl;
      rewrite ?Hcrit, ?Herr, ?Hnote, ?app_nil_r;
      repeat split; try reflexivity; try lia; try discriminate.
Qed.

Lemma log_accounts_for_failures_witness :
  exists s,
    observeBlocks 0
      [SubscribeReturns (Some "refused"); Elapse 30000000000;
       Select CaseTimer; SubscribeReturns (Some "timeout")] = Some s
    /\ at_level Critical (logged (trace s))
       = [can_not_observe "refused"; can_not_observe "timeout"].
Proof.
  eexists. split; [vm_compute; reflexivity |].
  apply (log_accounts_for_failures 0
           [SubscribeReturns (Some "refused"); Elapse 30000000000;
            Select CaseTimer; SubscribeReturns (Some "timeout")] _
           ltac:(vm_compute; reflexivity)).
Defined.

End ObserverAccountsSpec.
